(** * arduino-ffat-upload: the wear-levelling image builder, verified

    A shallow embedding of the pure core of the extension
    ([wlCrc32], [calculateWLLayout], [wrapWithWearLeveling],
    [fancyParseInt] and the partition scan of [doOperation]) together with
    the properties of its specification.

    Conventions of the embedding.
    - A JavaScript [number] that holds an integer is a [Z]; the values the
      program computes stay far below 2^53, where double arithmetic is exact.
      [Math.floor (a / b)] and [Math.ceil (a / b)] are then the floor and the
      ceiling of the exact quotient, for a divisor different from 0.
      Sizes are non-negative and a sector size is positive; where the
      assembler has to succeed, the partition size fits the 32-bit fields of
      the on-flash records ([writeUInt32LE] throws beyond them).
    - The 32-bit operators [^], [&] and [>>>] convert their operands with
      ToInt32 / ToUint32; the wrap-around is written out in [JS].
    - A [Buffer] is the list of its bytes, each byte a [Z] in [0, 256).
    - A string is the list of its characters (7-bit ASCII text).
    - A thrown exception is a [Throw] result. *)

From Stdlib Require Import ZArith Lia Ascii String.
From stdpp Require Import base numbers list strings sets.

Local Open Scope Z_scope.

(** ** JavaScript numbers seen as 32-bit integers *)

Module JS.

Definition ToUint32 (x : Z) : Z := x mod 2 ^ 32.

Definition ToInt32 (x : Z) : Z :=
  let u := x mod 2 ^ 32 in
  if 2 ^ 31 <=? u then u - 2 ^ 32 else u.

(** [a ^ b] *)
Definition bxor (a b : Z) : Z := Z.lxor (ToInt32 a) (ToInt32 b).

(** [a & b] *)
Definition band (a b : Z) : Z := Z.land (ToInt32 a) (ToInt32 b).

(** [a >>> n] *)
Definition ushr (a n : Z) : Z := Z.shiftr (ToUint32 a) (Z.land (ToUint32 n) 31).

(** a number used as a condition *)
Definition truthy (x : Z) : bool := negb (x =? 0).

End JS.

(** ** Buffers *)

Abbreviation Buffer := (list Z).

Definition is_u8 (b : Z) : Prop := 0 <= b < 256.

Definition is_u32 (v : Z) : Prop := 0 <= v <= 0xFFFFFFFF.

(** ** Checksum engine *)

(** One turn of the inner loop:
    [crc = (crc & 1) ? ((crc >>> 1) ^ 0xEDB88320) : (crc >>> 1)]. *)
Definition crc_round (crc : Z) : Z :=
  if JS.truthy (JS.band crc 1)
  then JS.bxor (JS.ushr crc 1) 0xEDB88320
  else JS.ushr crc 1.

(** One turn of the outer loop: [crc ^= buf[i]] and eight rounds. *)
Definition crc_byte (crc b : Z) : Z :=
  Nat.iter 8 crc_round (JS.bxor crc b).

Definition wlCrc32 (buf : Buffer) : Z :=
  let crc := fold_left crc_byte buf 0xFFFFFFFF in
  JS.ushr crc 0.

(** The checksum as the specification words it, on unsigned 32-bit
    accumulators: seed 0xFFFFFFFF; per byte, XOR into the low byte and eight
    rounds of shift-right-1, XOR-ed with 0xEDB88320 when the low bit was set;
    the final accumulator is returned as it is. *)
Module CrcSpec.

Definition polynomial : Z := 0xEDB88320.
Definition seed : Z := 0xFFFFFFFF.

Definition round (acc : Z) : Z :=
  if Z.odd acc then Z.lxor (Z.shiftr acc 1) polynomial else Z.shiftr acc 1.

Definition feed (acc b : Z) : Z := Nat.iter 8 round (Z.lxor acc b).

Definition crc32 (buf : Buffer) : Z := fold_left feed buf seed.

(** The conventional CRC-32 complements the final accumulator. *)
Definition crc32_conventional (buf : Buffer) : Z := Z.lxor (crc32 buf) 0xFFFFFFFF.

End CrcSpec.

(** ** Layout calculator *)

Record WLLayout := mkWLLayout {
  stateSize : Z;
  cfgSize : Z;
  flashSize : Z;
  maxPos : Z;
  addrCfg : Z;
  addrState1 : Z;
  addrState2 : Z
}.

Module Math.
(** [Math.floor (a / b)] *)
Definition floor_div (a b : Z) : Z := a / b.
(** [Math.ceil (a / b)] *)
Definition ceil_div (a b : Z) : Z := - ((- a) / b).
End Math.

Definition calculateWLLayout (partitionSize sectorSize : Z) : WLLayout :=
  let WL_STATE_HEADER_SIZE := 64 in
  let cfgSize := Math.ceil_div 36 sectorSize * sectorSize in
  let numSectors := Math.floor_div partitionSize sectorSize in
  let stateRawSize := WL_STATE_HEADER_SIZE + numSectors * 4 in
  let stateSize := Math.ceil_div stateRawSize sectorSize * sectorSize in
  let addrCfg := partitionSize - cfgSize in
  let addrState1 := partitionSize - cfgSize - stateSize * 2 in
  let addrState2 := partitionSize - cfgSize - stateSize in
  let flashSize := (Math.floor_div addrState1 sectorSize - 1) * sectorSize in
  let maxPos := Math.floor_div flashSize sectorSize + 1 in
  {| stateSize := stateSize; cfgSize := cfgSize; flashSize := flashSize;
     maxPos := maxPos; addrCfg := addrCfg; addrState1 := addrState1;
     addrState2 := addrState2 |}.

(** The default of the second parameter. *)
Definition default_sectorSize : Z := 4096.

(** ** Exceptions *)

Inductive JsError :=
| SizeMismatch (actual expected : Z)   (* the [Error] of the size check *)
| RangeError.                          (* ERR_OUT_OF_RANGE of a Buffer method *)

Inductive result (A : Type) :=
| Ok (a : A)
| Throw (e : JsError).
Arguments Ok {A} a.
Arguments Throw {A} e.

#[global] Instance result_ret : MRet result := @Ok.
#[global] Instance result_bind : MBind result :=
  λ A B f m, match m with Ok a => f a | Throw e => Throw e end.

(** ** The Buffer methods the assembler calls *)

Module Buf.

Definition length (buf : Buffer) : Z := Z.of_nat (List.length buf).

(** [Buffer.alloc(size, fill)] *)
Definition alloc (size fill : Z) : result Buffer :=
  if size <? 0 then Throw RangeError
  else Ok (replicate (Z.to_nat size) (fill mod 256)).

(** [source.copy(target, targetStart)]: a negative start throws; otherwise
    the bytes that fit are copied, the others dropped. *)
Definition copy (source target : Buffer) (targetStart : Z) : result Buffer :=
  if targetStart <? 0 then Throw RangeError
  else Ok (list_inserts (Z.to_nat targetStart) source target).

(** [buf.subarray(start, end)] for [0 <= start <= end]. *)
Definition subarray (buf : Buffer) (start end_ : Z) : Buffer :=
  take (Z.to_nat (end_ - start)) (drop (Z.to_nat start) buf).

(** [buf.writeUInt32LE(value, offset)]: the value is range-checked, then the
    offset; the four bytes are stored low byte first, [value >>> 8] between
    two stores. *)
Definition writeUInt32LE (buf : Buffer) (value offset : Z) : result Buffer :=
  if (value <? 0) || (0xFFFFFFFF <? value) then Throw RangeError
  else if (offset <? 0) || (length buf <? offset + 4) then Throw RangeError
  else
    let b0 := value mod 256 in
    let value := JS.ushr value 8 in
    let b1 := value mod 256 in
    let value := JS.ushr value 8 in
    let b2 := value mod 256 in
    let value := JS.ushr value 8 in
    let b3 := value mod 256 in
    Ok (list_inserts (Z.to_nat offset) [b0; b1; b2; b3] buf).

(** [buf[i]] *)
Definition get (buf : Buffer) (i : Z) : option Z :=
  if i <? 0 then None else buf !! Z.to_nat i.

(** Reading back a little-endian 32-bit field ([readUInt32LE]). *)
Definition readUInt32LE (buf : Buffer) (offset : Z) : option Z :=
  b0 ← get buf offset;
  b1 ← get buf (offset + 1);
  b2 ← get buf (offset + 2);
  b3 ← get buf (offset + 3);
  Some (b0 + 256 * b1 + 65536 * b2 + 16777216 * b3).

End Buf.

(** ** Image assembler *)

Definition wrapWithWearLeveling
    (fatImage : Buffer) (partitionSize sectorSize : Z) : result Buffer :=
  let L := calculateWLLayout partitionSize sectorSize in
  if negb (Buf.length fatImage =? flashSize L)
  then Throw (SizeMismatch (Buf.length fatImage) (flashSize L))
  else
    image ← Buf.alloc partitionSize 0xFF;
    image ← Buf.copy fatImage image sectorSize;
    (* wl_config_t *)
    configBuf ← Buf.alloc 36 0;
    configBuf ← Buf.writeUInt32LE configBuf 0 0;
    configBuf ← Buf.writeUInt32LE configBuf partitionSize 4;
    configBuf ← Buf.writeUInt32LE configBuf sectorSize 8;
    configBuf ← Buf.writeUInt32LE configBuf sectorSize 12;
    configBuf ← Buf.writeUInt32LE configBuf 16 16;
    configBuf ← Buf.writeUInt32LE configBuf 16 20;
    configBuf ← Buf.writeUInt32LE configBuf 2 24;
    configBuf ← Buf.writeUInt32LE configBuf 32 28;
    let configCrc := wlCrc32 (Buf.subarray configBuf 0 32) in
    configBuf ← Buf.writeUInt32LE configBuf configCrc 32;
    image ← Buf.copy configBuf image (addrCfg L);
    let deviceId := configCrc in
    (* wl_state_t header *)
    stateHeader ← Buf.alloc 64 0;
    stateHeader ← Buf.writeUInt32LE stateHeader 0 0;
    stateHeader ← Buf.writeUInt32LE stateHeader (maxPos L) 4;
    stateHeader ← Buf.writeUInt32LE stateHeader 0 8;
    stateHeader ← Buf.writeUInt32LE stateHeader 0 12;
    stateHeader ← Buf.writeUInt32LE stateHeader 16 16;
    stateHeader ← Buf.writeUInt32LE stateHeader sectorSize 20;
    stateHeader ← Buf.writeUInt32LE stateHeader 2 24;
    stateHeader ← Buf.writeUInt32LE stateHeader deviceId 28;
    let stateCrc := wlCrc32 (Buf.subarray stateHeader 0 60) in
    stateHeader ← Buf.writeUInt32LE stateHeader stateCrc 60;
    image ← Buf.copy stateHeader image (addrState1 L);
    image ← Buf.copy stateHeader image (addrState2 L);
    Ok image.

(** The two records as the specification lists them. *)
Module RecordSpec.

(** A little-endian unsigned 32-bit field. *)
Definition u32le (v : Z) : Buffer :=
  [v mod 256; (v / 256) mod 256; (v / 65536) mod 256; (v / 16777216) mod 256].

(** WLConfigRecord without its checksum: 32 bytes. *)
Definition config_fields (partitionSize sectorSize : Z) : Buffer :=
  u32le 0 ++ u32le partitionSize ++ u32le sectorSize ++ u32le sectorSize ++
  u32le 16 ++ u32le 16 ++ u32le 2 ++ u32le 32.

(** WLConfigRecord: 36 bytes. *)
Definition config_record (partitionSize sectorSize : Z) : Buffer :=
  let fields := config_fields partitionSize sectorSize in
  fields ++ u32le (wlCrc32 fields).

(** WLStateRecord without its checksum: 60 bytes. *)
Definition state_fields (partitionSize sectorSize : Z) : Buffer :=
  let L := calculateWLLayout partitionSize sectorSize in
  let device_id := wlCrc32 (config_fields partitionSize sectorSize) in
  u32le 0 ++ u32le (maxPos L) ++ u32le 0 ++ u32le 0 ++ u32le 16 ++
  u32le sectorSize ++ u32le 2 ++ u32le device_id ++ replicate 28 0.

(** WLStateRecord: 64 bytes. *)
Definition state_record (partitionSize sectorSize : Z) : Buffer :=
  let fields := state_fields partitionSize sectorSize in
  fields ++ u32le (wlCrc32 fields).

End RecordSpec.

(** The assembled image, region by region: erased flash, then the raw image
    from the second sector on, the config record and the two state headers. *)
Definition assembled (fatImage : Buffer) (partitionSize sectorSize : Z) : Buffer :=
  let L := calculateWLLayout partitionSize sectorSize in
  let config := RecordSpec.config_record partitionSize sectorSize in
  let state := RecordSpec.state_record partitionSize sectorSize in
  let image := replicate (Z.to_nat partitionSize) 255 in
  let image := list_inserts (Z.to_nat sectorSize) fatImage image in
  let image := list_inserts (Z.to_nat (addrCfg L)) config image in
  let image := list_inserts (Z.to_nat (addrState1 L)) state image in
  list_inserts (Z.to_nat (addrState2 L)) state image.

(** ** Strings *)

Abbreviation jsstring := (list ascii).

(** A string literal. *)
Definition lit (s : string) : jsstring := list_ascii_of_string s.

Module Str.

Definition code (c : ascii) : Z := Z.of_N (N_of_ascii c).

Definition upper_char (c : ascii) : ascii :=
  if (97 <=? code c) && (code c <=? 122)
  then ascii_of_N (N_of_ascii c - 32)
  else c.

(** [s.toUpperCase()] *)
Definition toUpperCase (s : jsstring) : jsstring := map upper_char s.

(** White space: TAB, LF, VT, FF, CR and the space. *)
Definition is_space (c : ascii) : bool :=
  ((9 <=? code c) && (code c <=? 13)) || (code c =? 32).

Fixpoint trimStart (s : jsstring) : jsstring :=
  match s with
  | c :: t => if is_space c then trimStart t else s
  | [] => []
  end.

Definition trimEnd (s : jsstring) : jsstring := rev (trimStart (rev s)).

(** [s.trim()] *)
Definition trim (s : jsstring) : jsstring := trimEnd (trimStart s).

Fixpoint startsWith (s needle : jsstring) : bool :=
  match needle, s with
  | [], _ => true
  | a :: needle', b :: s' => if decide (a = b) then startsWith s' needle' else false
  | _ :: _, [] => false
  end.

Fixpoint indexOf_from (s needle : jsstring) (i : Z) : Z :=
  if startsWith s needle then i
  else match s with
       | [] => -1
       | _ :: t => indexOf_from t needle (i + 1)
       end.

(** [s.indexOf(needle)]: the first position of [needle], or -1. *)
Definition indexOf (s needle : jsstring) : Z := indexOf_from s needle 0.

(** [s.substring(start, end)]: both ends are clamped to the string and
    swapped when out of order. *)
Definition substring (s : jsstring) (start end_ : Z) : jsstring :=
  let len := Z.of_nat (length s) in
  let a := Z.min (Z.max start 0) len in
  let b := Z.min (Z.max end_ 0) len in
  let lo := Z.min a b in
  let hi := Z.max a b in
  take (Z.to_nat (hi - lo)) (drop (Z.to_nat lo) s).

(** [s.split(sep)] for a separator of one character. *)
Fixpoint split (s : jsstring) (sep : ascii) : list jsstring :=
  match s with
  | [] => [[]]
  | c :: t =>
      if decide (c = sep) then [] :: split t sep
      else match split t sep with
           | field :: fields => (c :: field) :: fields
           | [] => [[c]]
           end
  end.

End Str.

(** ** Numbers that may be NaN *)

Inductive Number :=
| NaN
| Num (z : Z).

Module Number.

Definition add (a b : Number) : Number :=
  match a, b with
  | Num x, Num y => Num (x + y)
  | _, _ => NaN
  end.

Definition mul (a b : Number) : Number :=
  match a, b with
  | Num x, Num y => Num (x * y)
  | _, _ => NaN
  end.

(** [a === z] *)
Definition strict_eq (a : Number) (z : Z) : bool :=
  match a with
  | Num x => x =? z
  | NaN => false
  end.

(** [!a]: zero and NaN are falsy. *)
Definition falsy (a : Number) : bool :=
  match a with
  | Num x => x =? 0
  | NaN => true
  end.

End Number.

(** ** Numeric literal parser *)

(** The value of a digit, letters counting from 10 in either case. *)
Definition digit_value (c : ascii) : option Z :=
  let n := Str.code c in
  if (48 <=? n) && (n <=? 57) then Some (n - 48)
  else if (97 <=? n) && (n <=? 122) then Some (n - 87)
  else if (65 <=? n) && (n <=? 90) then Some (n - 55)
  else None.

(** The longest prefix of digits of radix [R]. *)
Fixpoint digits_prefix (R : Z) (s : jsstring) : list Z :=
  match s with
  | c :: t =>
      match digit_value c with
      | Some d => if d <? R then d :: digits_prefix R t else []
      | None => []
      end
  | [] => []
  end.

Definition digits_value (R : Z) (ds : list Z) : Z :=
  fold_left (λ acc d, acc * R + d) ds 0.

(** What [parseInt] reads its digits from: the string without leading white
    space and sign. *)
Definition after_sign (s : jsstring) : jsstring :=
  let S := Str.trimStart s in
  match S with
  | c :: t => if decide (c = "+"%char ∨ c = "-"%char) then t else S
  | [] => S
  end.

(** [parseInt(string, radix)]; [None] is a radix left out. *)
Definition parseInt (string : jsstring) (radix : option Z) : Number :=
  let S := Str.trimStart string in
  let sign := match S with
              | c :: _ => if decide (c = "-"%char) then -1 else 1
              | [] => 1
              end in
  let S := match S with
           | c :: t => if decide (c = "+"%char ∨ c = "-"%char) then t else S
           | [] => S
           end in
  let R := match radix with Some r => JS.ToInt32 r | None => 0 end in
  if negb (R =? 0) && ((R <? 2) || (36 <? R)) then NaN
  else
    let stripPrefix := (R =? 0) || (R =? 16) in
    let R := if R =? 0 then 10 else R in
    let hex := stripPrefix &&
               (Str.startsWith S (lit "0x") || Str.startsWith S (lit "0X")) in
    let S := if hex then drop 2 S else S in
    let R := if hex then 16 else R in
    match digits_prefix R S with
    | [] => NaN
    | ds => Num (sign * digits_value R ds)
    end.

Definition fancyParseInt (str : jsstring) : Number :=
  let up := Str.trim (Str.toUpperCase str) in
  if decide (up = lit "") then Num 0
  else if 0 <=? Str.indexOf up (lit "0X") then parseInt str (Some 16)
  else if 0 <=? Str.indexOf up (lit "K") then
    Number.mul (Num 1024)
      (parseInt (Str.substring up 0 (Str.indexOf up (lit "K"))) None)
  else if 0 <=? Str.indexOf up (lit "M") then
    Number.mul (Num (1024 * 1024))
      (parseInt (Str.substring up 0 (Str.indexOf up (lit "M"))) None)
  else parseInt str None.

(** ** Partition table scan of [doOperation] *)

(** The variables the loop updates. *)
Record ScanState := mkScanState {
  lastend : Number;
  fsStart : Number;
  fsEnd : Number
}.

(** The body of the loop for a line of more than four fields. *)
Definition scan_entry (st : ScanState) (partitionEntry : list jsstring) : ScanState :=
  let offset := fancyParseInt (nth 3 partitionEntry []) in
  let length := fancyParseInt (nth 4 partitionEntry []) in
  let offset := if Number.strict_eq offset 0 then lastend st else offset in
  let lastend := Number.add offset length in
  let partsubtype := Str.trim (Str.toUpperCase (nth 2 partitionEntry [])) in
  if decide (partsubtype = lit "FAT")
  then {| lastend := lastend; fsStart := offset; fsEnd := Number.add offset length |}
  else {| lastend := lastend; fsStart := fsStart st; fsEnd := fsEnd st |}.

(** One turn of the loop over the lines. *)
Definition scan_line (st : ScanState) (line : jsstring) : ScanState :=
  let line :=
    if 0 <=? Str.indexOf line (lit "#")
    then Str.substring line 0 (Str.indexOf line (lit "#"))
    else line in
  let partitionEntry := Str.split line ","%char in
  if 4 <? Z.of_nat (length partitionEntry)
  then scan_entry st partitionEntry
  else st.

Definition newline : ascii := ascii_of_N 10.

(** The loop, from [lastend = 0x8000 + 0xc00] and [fsStart = fsEnd = 0]. *)
Definition doOperation_scan (partitionData : jsstring) : ScanState :=
  let partitionDataArray := Str.split partitionData newline in
  fold_left scan_line partitionDataArray
    {| lastend := Num (0x8000 + 0xc00); fsStart := Num 0; fsEnd := Num 0 |}.

Inductive Located :=
| FatNotFound                       (* the error message, and [return] *)
| FatRange (fsStart fsEnd : Z).     (* the scan goes on with this range *)

(** The loop and the check [if (!fsStart || !fsEnd)] after it. *)
Definition doOperation_locate (partitionData : jsstring) : Located :=
  let st := doOperation_scan partitionData in
  if Number.falsy (fsStart st) || Number.falsy (fsEnd st) then FatNotFound
  else match fsStart st, fsEnd st with
       | Num s, Num e => FatRange s e
       | _, _ => FatNotFound
       end.

(** The partition table as the specification reads it. *)
Module TableSpec.

(** The characters before the first [c], all of them when there is none. *)
Fixpoint before (c : ascii) (s : jsstring) : jsstring :=
  match s with
  | [] => []
  | x :: t => if decide (x = c) then [] else x :: before c t
  end.

(** [needle] occurs in [s]. *)
Definition contains (needle s : jsstring) : Prop :=
  ∃ pre post, s = pre ++ needle ++ post.

(** The rows: per line, the text before [#] cut at the commas; lines of
    fewer than five fields are skipped. *)
Definition rows (text : jsstring) : list (list jsstring) :=
  filter (λ fields, (5 <= length fields)%nat)
    (map (λ line, Str.split (before "#"%char line) ","%char)
         (Str.split text newline)).

(** The subtype field, trimmed and without regard to case, is FAT. *)
Definition is_fat (row : list jsstring) : Prop :=
  Str.trim (Str.toUpperCase (nth 2 row [])) = lit "FAT".

Record Entry := mkEntry {
  e_fat : bool;
  e_offset : Number;   (* resolved *)
  e_size : Number
}.

Definition base_cursor : Z := 0x8000 + 0xC00.

(** Offsets resolved by a cursor running over the rows in file order. *)
Fixpoint resolve (cursor : Number) (rows : list (list jsstring)) : list Entry :=
  match rows with
  | [] => []
  | row :: rest =>
      let offset := fancyParseInt (nth 3 row []) in
      let size := fancyParseInt (nth 4 row []) in
      let offset := if Number.strict_eq offset 0 then cursor else offset in
      {| e_fat := bool_decide (is_fat row); e_offset := offset; e_size := size |}
        :: resolve (Number.add offset size) rest
  end.

Definition entries (text : jsstring) : list Entry :=
  resolve (Num base_cursor) (rows text).

(** The last FAT entry in file order. *)
Definition last_fat (text : jsstring) : option Entry :=
  last (filter (λ e, e_fat e = true) (entries text)).

End TableSpec.

(** ** Sample partition tables *)

Definition table_with_ffat : jsstring :=
  lit "# Name,   Type, SubType, Offset,  Size, Flags" ++ [newline] ++
  lit "nvs,      data, nvs,     0x9000,  0x5000," ++ [newline] ++
  lit "otadata,  data, ota,     0xe000,  0x2000," ++ [newline] ++
  lit "app0,     app,  ota_0,   0x10000, 0x140000," ++ [newline] ++
  lit "app1,     app,  ota_1,   0x150000,0x140000," ++ [newline] ++
  lit "ffat,     data, fat,     0x290000,0x160000," ++ [newline] ++
  lit "coredump, data, coredump,0x3F0000,0x10000," ++ [newline].

Definition table_without_fat : jsstring :=
  lit "# Name,   Type, SubType, Offset,  Size, Flags" ++ [newline] ++
  lit "nvs,      data, nvs,     0x9000,  0x5000," ++ [newline] ++
  lit "app0,     app,  ota_0,   0x10000, 0x140000," ++ [newline] ++
  lit "spiffs,   data, spiffs,  0x290000,0x160000," ++ [newline].

(** A FAT row whose offset starts with the letter O instead of a zero. *)
Definition table_bad_offset : jsstring :=
  lit "nvs,  data, nvs, 0x9000,  0x5000," ++ [newline] ++
  lit "ffat, data, fat, Ox290000, 1M," ++ [newline].

(** * Further parts of the extension *)

(** ** White space and well-formed rows *)

(** A string of white space only. *)
Definition all_space (ws : jsstring) : Prop :=
  Forall (λ c, Str.is_space c = true) ws.

(** A character of a printed decimal number: a digit or the minus sign. *)
Definition decimal_char (c : ascii) : bool :=
  ((48 <=? Str.code c) && (Str.code c <=? 57)) || bool_decide (c = "-"%char).

(** A digit of a printed hexadecimal number. *)
Definition hex_char (c : ascii) : bool :=
  ((48 <=? Str.code c) && (Str.code c <=? 57)) ||
  ((97 <=? Str.code c) && (Str.code c <=? 102)).

(** A row whose offset and size fields parse to numbers that are not
    negative. *)
Definition row_sizes_ok (row : list jsstring) : Prop :=
  ∃ offset size,
    fancyParseInt (nth 3 row []) = Num offset ∧
    fancyParseInt (nth 4 row []) = Num size ∧
    0 <= offset ∧ 0 <= size.

(** ** Printing numbers *)

(** [n.toString(radix)] and [String(n)] for an integer [n]: digits in lower
    case, most significant first, a minus sign before the digits of a
    negative number. *)
Module NumberToString.

Definition digit_char (d : Z) : ascii :=
  if d <? 10 then ascii_of_N (Z.to_N (48 + d)) else ascii_of_N (Z.to_N (87 + d)).

Fixpoint digits (fuel : nat) (radix n : Z) : jsstring :=
  match fuel with
  | O => []
  | S fuel' =>
      if n <? radix then [digit_char n]
      else digits fuel' radix (n / radix) ++ [digit_char (n mod radix)]
  end.

(** The values of these digits. *)
Fixpoint digit_values (fuel : nat) (radix n : Z) : list Z :=
  match fuel with
  | O => []
  | S fuel' =>
      if n <? radix then [n]
      else digit_values fuel' radix (n / radix) ++ [n mod radix]
  end.

(** More turns than [n] has digits in any radix. *)
Definition fuel (n : Z) : nat := S (Z.to_nat (Z.log2 n)).

Definition toString (n radix : Z) : jsstring :=
  if n <? 0 then "-"%char :: digits (fuel (- n)) radix (- n)
  else digits (fuel n) radix n.

End NumberToString.

(** [Number.isSafeInteger(n)]: the integers that a number holds exactly and
    that are printed digit by digit. *)
Definition is_safe_integer (n : Z) : Prop := - 2 ^ 53 < n < 2 ^ 53.

(** [String(n)] *)
Definition String_ (n : Z) : jsstring := NumberToString.toString n 10.

(** ** Terminal output *)

Definition ESC : ascii := ascii_of_N 27.
Definition CR : ascii := ascii_of_N 13.
Definition CRLF : jsstring := [CR; newline].

Module ANSIStyle.
Inductive t := bold | red | green | blue | yellow.
Definition code (style : t) : Z :=
  match style with
  | bold => 1
  | red => 31
  | green => 32
  | blue => 34
  | yellow => 33
  end.
End ANSIStyle.

Definition resetStyle : jsstring := ESC :: lit "[0m".

Definition color (text : jsstring) (foregroundColor : ANSIStyle.t) (isBold : bool)
    : jsstring :=
  ESC :: lit "[" ++ String_ (ANSIStyle.code foregroundColor) ++
  (if isBold then lit ";" ++ String_ (ANSIStyle.code ANSIStyle.bold) else lit "") ++
  lit "m" ++ text ++ resetStyle.

Definition red (text : jsstring) : jsstring := color text ANSIStyle.red false.
Definition green (text : jsstring) (isBold : bool) : jsstring :=
  color text ANSIStyle.green isBold.
Definition blue (text : jsstring) (isBold : bool) : jsstring :=
  color text ANSIStyle.blue isBold.
Definition yellow (text : jsstring) (isBold : bool) : jsstring :=
  color text ANSIStyle.yellow isBold.
Definition bold (text : jsstring) : jsstring :=
  ESC :: lit "[" ++ String_ (ANSIStyle.code ANSIStyle.bold) ++ lit "m" ++ text ++
  resetStyle.

(** [String(chunk).replace(/\n/g, "\r\n")] *)
Fixpoint replace_newlines (chunk : jsstring) : jsstring :=
  match chunk with
  | [] => []
  | c :: rest =>
      (if decide (c = newline) then CRLF else [c]) ++ replace_newlines rest
  end.

(** What [runCommand] fires for a chunk of the standard output, and for a
    chunk of the standard error. *)
Definition runCommand_stdout (chunk : jsstring) : jsstring :=
  replace_newlines chunk.

Definition runCommand_stderr (chunk : jsstring) : jsstring :=
  (ESC :: lit "[31m") ++ replace_newlines chunk ++ (ESC :: lit "[0m").

(** Every line feed of a text has a carriage return before it. *)
Definition no_bare_lf (s : jsstring) : Prop :=
  ∀ pre post, s = pre ++ newline :: post → ∃ pre', pre = pre' ++ [CR].

(** ** Board details *)

Module Arduino.

Record ConfigValue := mkConfigValue {
  value : jsstring;
  selected : bool
}.

Record ConfigOption := mkConfigOption {
  option_ : jsstring;
  values : list ConfigValue
}.

(** An object with string keys, in the order in which [Object.keys] lists
    them; a key bound to [None] holds [undefined]. Keys occur once. *)
Abbreviation Properties := (list (jsstring * Datatypes.option jsstring)).

Record BoardDetails := mkBoardDetails {
  configOptions : list ConfigOption;
  buildProperties : Properties
}.

Record ArduinoContext := mkArduinoContext {
  sketchPath : Datatypes.option jsstring;
  boardDetails : Datatypes.option BoardDetails
}.

(** [Object.keys(props)] *)
Definition keys (props : Properties) : list jsstring := map fst props.

(** [props[key]] *)
Fixpoint get (props : Properties) (key : jsstring) : Datatypes.option jsstring :=
  match props with
  | [] => None
  | (k, v) :: rest => if decide (k = key) then v else get rest key
  end.

End Arduino.

(** The body of the [forEach] of [findTool], on the variables [found] and
    [ret]. *)
Definition findTool_visit (props : Arduino.Properties) (match_ : jsstring)
    (st : bool * option jsstring) (elem : jsstring) : bool * option jsstring :=
  let '(found, ret) := st in
  if Str.startsWith elem match_ && negb found &&
     bool_decide (Arduino.get props elem ≠ None)
  then (true, Arduino.get props elem)
  else (found, ret).

Definition findTool (ctx : Arduino.ArduinoContext) (match_ : jsstring)
    : option jsstring :=
  match Arduino.boardDetails ctx with
  | Some details =>
      let props := Arduino.buildProperties details in
      snd (fold_left (findTool_visit props match_) (Arduino.keys props) (false, None))
  | None => None
  end.

(** The text fired at the terminal, chunk by chunk. *)
Abbreviation Log := (list jsstring).

(** A string or [undefined] inside a concatenation. *)
Definition concat_operand (v : option jsstring) : jsstring :=
  match v with
  | Some s => s
  | None => lit "undefined"
  end.

Definition getSelectedPartitionScheme (boardDetails : Arduino.BoardDetails)
    : Log * option jsstring :=
  match List.find (λ o, bool_decide (Arduino.option_ o = lit "PartitionScheme"))
          (Arduino.configOptions boardDetails) with
  | None =>
      ([red (CRLF ++ CRLF ++ lit "ERROR: Failed to read partition scheme options" ++ CRLF)],
       None)
  | Some partitionSchemeOptions =>
      match List.find Arduino.selected (Arduino.values partitionSchemeOptions) with
      | None =>
          ([red (CRLF ++ CRLF ++ lit "ERROR: No partition scheme selected" ++ CRLF)],
           None)
      | Some selectedOption =>
          ([], Arduino.get (Arduino.buildProperties boardDetails)
                 (lit "menu.PartitionScheme." ++ Arduino.value selectedOption ++
                  lit ".build.partitions"))
      end
  end.

Definition getDefaultPartitionScheme (boardDetails : Arduino.BoardDetails)
    : Log * option jsstring :=
  let partitions := Arduino.get (Arduino.buildProperties boardDetails)
                      (lit "build.partitions") in
  let falsy := match partitions with Some (_ :: _) => false | _ => true end in
  (if falsy
   then [red (CRLF ++ CRLF ++ lit "ERROR: Partitions not defined for this ESP32 board" ++ CRLF)]
   else [],
   partitions).

Section PartitionSchemeFile.

(** [path.sep], and the paths for which [fs.existsSync] answers true. *)
Variable sep : jsstring.
Variable existsSync : jsstring → bool.

Definition getPartitionSchemeFile (arduinoContext : Arduino.ArduinoContext)
    : Log * option jsstring :=
  let localPartitionsFile :=
    match Arduino.sketchPath arduinoContext with
    | Some sketch =>
        let file := sketch ++ sep ++ lit "partitions.csv" in
        if existsSync file then Some file else None
    | None => None
    end in
  match localPartitionsFile with
  | Some file =>
      ([blue (lit "Using partition: ") false ++
        green (lit "partitions.csv in sketch folder") false ++ CRLF],
       Some file)
  | None =>
      match Arduino.boardDetails arduinoContext with
      | None =>
          ([red (CRLF ++ CRLF ++ lit "ERROR: Board details is undefined" ++ CRLF)], None)
      | Some details =>
          let '(log1, selectedScheme) := getSelectedPartitionScheme details in
          let '(log2, selectedScheme) :=
            match selectedScheme with
            | Some _ => ([], selectedScheme)
            | None => getDefaultPartitionScheme details
            end in
          match selectedScheme with
          | None =>
              (log1 ++ log2 ++
               [red (CRLF ++ CRLF ++ lit "ERROR: No board partition scheme found" ++ CRLF)],
               None)
          | Some scheme =>
              let platformPath :=
                Arduino.get (Arduino.buildProperties details)
                  (lit "runtime.platform.path") in
              (log1 ++ log2 ++
               [blue (lit "Using partition: ") false ++ green scheme false ++ CRLF],
               Some (concat_operand platformPath ++ sep ++ lit "tools" ++ sep ++
                     lit "partitions" ++ sep ++ scheme ++ lit ".csv"))
          end
      end
  end.

End PartitionSchemeFile.

(** ** The data path of [doOperation] *)

(** The size asked of mkfatfs for the range found in the table
    ([calculateWLLayout(fsSize)], its [flashSize]). *)
Definition doOperation_rawSize (fsStart fsEnd : Z) : Z :=
  let fsSize := fsEnd - fsStart in
  let wlLayout := calculateWLLayout fsSize default_sectorSize in
  flashSize wlLayout.

(** The image written from what mkfatfs left, or nothing when
    [wrapWithWearLeveling] throws: the [catch] reports and returns. *)
Definition doOperation_wrap (fsStart fsEnd : Z) (rawData : Buffer) : option Buffer :=
  let fsSize := fsEnd - fsStart in
  match wrapWithWearLeveling rawData fsSize default_sectorSize with
  | Ok wlImage => Some wlImage
  | Throw _ => None
  end.

(** * Properties *)

(** ** 32-bit arithmetic *)

Section Bits32.

Lemma ToUint32_u32 x : is_u32 (JS.ToUint32 x).
Proof.
  unfold JS.ToUint32, is_u32.
  pose proof (Z.mod_pos_bound x (2 ^ 32)). lia.
Qed.

Lemma ToUint32_small x : is_u32 x → JS.ToUint32 x = x.
Proof. unfold is_u32, JS.ToUint32. intros H. apply Z.mod_small. lia. Qed.

Lemma ToUint32_ToInt32 x : JS.ToUint32 (JS.ToInt32 x) = JS.ToUint32 x.
Proof.
  unfold JS.ToInt32, JS.ToUint32. cbv zeta.
  destruct (2 ^ 31 <=? x mod 2 ^ 32).
  - replace (x mod 2 ^ 32 - 2 ^ 32) with (x mod 2 ^ 32 + (-1) * 2 ^ 32) by lia.
    rewrite Z_mod_plus_full. apply Z.mod_mod. lia.
  - apply Z.mod_mod. lia.
Qed.

Lemma ToUint32_lxor a b :
  JS.ToUint32 (Z.lxor a b) = Z.lxor (JS.ToUint32 a) (JS.ToUint32 b).
Proof.
  unfold JS.ToUint32. rewrite <- !(Z.land_ones _ 32) by lia.
  apply Z.bits_inj'. intros n Hn.
  rewrite !Z.land_spec, !Z.lxor_spec, !Z.land_spec.
  destruct (Z.testbit a n), (Z.testbit b n), (Z.testbit (Z.ones 32) n); reflexivity.
Qed.

Lemma lxor_u32 a b : is_u32 a → is_u32 b → is_u32 (Z.lxor a b).
Proof.
  intros Ha Hb.
  rewrite <- (ToUint32_small a), <- (ToUint32_small b), <- ToUint32_lxor by assumption.
  apply ToUint32_u32.
Qed.

Lemma half_u32 a : is_u32 a → is_u32 (a / 2).
Proof.
  unfold is_u32. intros Ha. split; [apply Z.div_pos; lia|].
  apply Z.lt_succ_r, Z.div_lt_upper_bound; lia.
Qed.

Lemma lxor_cancel_r a b c : Z.lxor a c = Z.lxor b c → a = b.
Proof.
  intros H. apply (f_equal (λ x, Z.lxor x c)) in H.
  by rewrite !Z.lxor_assoc, !Z.lxor_nilpotent, !Z.lxor_0_r in H.
Qed.

Lemma lxor_cancel_l a b c : Z.lxor c a = Z.lxor c b → a = b.
Proof. rewrite !(Z.lxor_comm c). apply lxor_cancel_r. Qed.

Lemma odd_ToInt32 x : Z.odd (JS.ToInt32 x) = Z.odd (JS.ToUint32 x).
Proof.
  unfold JS.ToInt32, JS.ToUint32. cbv zeta.
  destruct (2 ^ 31 <=? x mod 2 ^ 32); [|done].
  rewrite Z.odd_sub. change (Z.odd (2 ^ 32)) with false. apply xorb_false_r.
Qed.

Lemma land_1_odd y : Z.land y 1 = if Z.odd y then 1 else 0.
Proof. change 1 with (Z.ones 1) at 1. rewrite Z.land_ones by lia. apply Zmod_odd. Qed.

Lemma truthy_band_1 c : JS.truthy (JS.band c 1) = Z.odd (JS.ToUint32 c).
Proof.
  unfold JS.truthy, JS.band. change (JS.ToInt32 1) with 1.
  rewrite land_1_odd, odd_ToInt32. by destruct (Z.odd _).
Qed.

Lemma ushr_1 c : JS.ushr c 1 = JS.ToUint32 c / 2.
Proof.
  unfold JS.ushr. change (Z.land (JS.ToUint32 1) 31) with 1.
  by rewrite Z.shiftr_div_pow2.
Qed.

Lemma ushr_0 c : JS.ushr c 0 = JS.ToUint32 c.
Proof. unfold JS.ushr. change (Z.land (JS.ToUint32 0) 31) with 0. apply Z.shiftr_0_r. Qed.

Lemma ushr_8 v : is_u32 v → JS.ushr v 8 = v / 256.
Proof.
  intros Hv. unfold JS.ushr. change (Z.land (JS.ToUint32 8) 31) with 8.
  rewrite ToUint32_small by done. by rewrite Z.shiftr_div_pow2.
Qed.

Lemma ToUint32_bxor a b :
  JS.ToUint32 (JS.bxor a b) = Z.lxor (JS.ToUint32 a) (JS.ToUint32 b).
Proof. unfold JS.bxor. by rewrite ToUint32_lxor, !ToUint32_ToInt32. Qed.

Lemma testbit_u32_high a n : is_u32 a → 32 <= n → Z.testbit a n = false.
Proof.
  unfold is_u32. intros Ha Hn. rewrite <- (Z.mod_small a (2 ^ 32)) by lia.
  apply Z.mod_pow2_bits_high. lia.
Qed.

Lemma fold_left_cons {A B} (f : A → B → A) x l a :
  fold_left f (x :: l) a = fold_left f l (f a x).
Proof. reflexivity. Qed.

End Bits32.

(** ** Checksum engine *)

Section Checksum.

Import CrcSpec.

Lemma round_shift a : Z.shiftr a 1 = a / 2.
Proof. by rewrite Z.shiftr_div_pow2. Qed.

Lemma polynomial_u32 : is_u32 polynomial.
Proof. unfold is_u32, polynomial. lia. Qed.

Lemma seed_u32 : is_u32 seed.
Proof. unfold is_u32, seed. lia. Qed.

Lemma round_u32 a : is_u32 a → is_u32 (round a).
Proof.
  intros Ha. unfold round. rewrite round_shift.
  pose proof (half_u32 a Ha). destruct (Z.odd a); [|done].
  apply lxor_u32; [done|apply polynomial_u32].
Qed.

(** The top bit of a round's result tells whether the low bit was set. *)
Lemma round_top_bit a : is_u32 a → Z.testbit (round a) 31 = Z.odd a.
Proof.
  intros Ha. unfold round. destruct (Z.odd a).
  - rewrite Z.lxor_spec, Z.shiftr_spec by lia.
    rewrite (testbit_u32_high a (31 + 1)) by (done || lia). reflexivity.
  - rewrite Z.shiftr_spec by lia. apply testbit_u32_high; (done || lia).
Qed.

Lemma round_inj a b : is_u32 a → is_u32 b → round a = round b → a = b.
Proof.
  intros Ha Hb Heq.
  assert (Hodd : Z.odd a = Z.odd b).
  { rewrite <- (round_top_bit a), <- (round_top_bit b) by done. by rewrite Heq. }
  assert (Hhalf : a / 2 = b / 2).
  { unfold round in Heq. rewrite <- Hodd, !round_shift in Heq.
    destruct (Z.odd a); [by eapply lxor_cancel_r|done]. }
  rewrite (Z.div_mod a 2), (Z.div_mod b 2), !Zmod_odd, Hodd, Hhalf by lia.
  reflexivity.
Qed.

Lemma rounds_u32 n a : is_u32 a → is_u32 (Nat.iter n round a).
Proof. intros Ha. induction n as [|n IH]; simpl; [done|]. by apply round_u32. Qed.

Lemma rounds_inj n a b :
  is_u32 a → is_u32 b → Nat.iter n round a = Nat.iter n round b → a = b.
Proof.
  intros Ha Hb. induction n as [|n IH]; simpl; [done|].
  intros Heq. apply IH. by apply round_inj; [apply rounds_u32..|].
Qed.

Lemma xor_byte_u32 a b : is_u32 a → is_u8 b → is_u32 (Z.lxor a b).
Proof.
  intros Ha Hb. apply lxor_u32; [done|]. unfold is_u32, is_u8 in *. lia.
Qed.

Lemma feed_u32 a b : is_u32 a → is_u8 b → is_u32 (feed a b).
Proof. intros Ha Hb. apply rounds_u32. by apply xor_byte_u32. Qed.

Lemma feed_inj a a' b b' :
  is_u32 a → is_u32 a' → is_u8 b → is_u8 b' →
  feed a b = feed a' b' → Z.lxor a b = Z.lxor a' b'.
Proof. intros ????. apply rounds_inj; by apply xor_byte_u32. Qed.

Lemma fold_feed_u32 buf a :
  Forall is_u8 buf → is_u32 a → is_u32 (fold_left feed buf a).
Proof.
  intros Hbuf. revert a.
  induction Hbuf as [|b buf Hb _ IH]; intros a Ha; [done|]; rewrite fold_left_cons.
  apply IH. by apply feed_u32.
Qed.

(** Feeding the same bytes keeps two accumulators apart. *)
Lemma fold_feed_inj buf a a' :
  Forall is_u8 buf → is_u32 a → is_u32 a' →
  fold_left feed buf a = fold_left feed buf a' → a = a'.
Proof.
  intros Hbuf. revert a a'.
  induction Hbuf as [|b buf Hb _ IH]; intros a a' Ha Ha'; [done|];
    rewrite !fold_left_cons.
  intros Heq. apply IH in Heq; [|by apply feed_u32..].
  apply feed_inj in Heq; [|done..]. by eapply lxor_cancel_r.
Qed.

(** Changing one byte changes the checksum. *)
Lemma crc32_avalanche (buf : Buffer) (k : nat) b b' :
  Forall is_u8 buf → buf !! k = Some b → is_u8 b' → b' ≠ b →
  crc32 (<[k:=b']> buf) ≠ crc32 buf.
Proof.
  intros Hbuf Hk Hb' Hne.
  assert (Hlt : (k < length buf)%nat) by (by eapply lookup_lt_Some).
  assert (Hb : is_u8 b) by (by eapply Forall_lookup_1).
  rewrite insert_take_drop by done.
  rewrite <- (take_drop_middle buf k b) at 3 by done.
  unfold crc32. rewrite !fold_left_app, !fold_left_cons.
  set (a := fold_left feed (take k buf) seed).
  assert (Ha : is_u32 a) by (apply fold_feed_u32; [by apply Forall_take|apply seed_u32]).
  intros Heq. apply fold_feed_inj in Heq; [|by apply Forall_drop|by apply feed_u32..].
  apply feed_inj in Heq; [|done..].
  by apply lxor_cancel_l in Heq.
Qed.

(** The loop of [wlCrc32], read modulo 2^32, is the specified one. *)

Lemma crc_round_refines c : JS.ToUint32 (crc_round c) = round (JS.ToUint32 c).
Proof.
  unfold crc_round, round. rewrite truthy_band_1, ushr_1, round_shift.
  pose proof (half_u32 _ (ToUint32_u32 c)) as Hhalf.
  destruct (Z.odd _).
  - rewrite ToUint32_bxor, (ToUint32_small (_ / 2)) by done. reflexivity.
  - by apply ToUint32_small.
Qed.

Lemma crc_rounds_refine n c :
  JS.ToUint32 (Nat.iter n crc_round c) = Nat.iter n round (JS.ToUint32 c).
Proof. induction n as [|n IH]; simpl; [done|]. by rewrite crc_round_refines, IH. Qed.

Lemma crc_byte_refines c b :
  is_u8 b → JS.ToUint32 (crc_byte c b) = feed (JS.ToUint32 c) b.
Proof.
  intros Hb. unfold crc_byte, feed.
  rewrite crc_rounds_refine, ToUint32_bxor, (ToUint32_small b); [done|].
  unfold is_u8, is_u32 in *. lia.
Qed.

Lemma crc_fold_refines buf c :
  Forall is_u8 buf →
  JS.ToUint32 (fold_left crc_byte buf c) = fold_left feed buf (JS.ToUint32 c).
Proof.
  intros Hbuf. revert c.
  induction Hbuf as [|b buf Hb _ IH]; intros c; [done|]; rewrite !fold_left_cons.
  by rewrite IH, crc_byte_refines.
Qed.

Lemma wlCrc32_refines buf : Forall is_u8 buf → wlCrc32 buf = crc32 buf.
Proof.
  intros Hbuf. unfold wlCrc32. cbv zeta. rewrite ushr_0.
  by rewrite crc_fold_refines.
Qed.

Lemma wlCrc32_u32 buf : is_u32 (wlCrc32 buf).
Proof. unfold wlCrc32. cbv zeta. rewrite ushr_0. apply ToUint32_u32. Qed.

Lemma complement_differs x : Z.lxor x 0xFFFFFFFF ≠ x.
Proof.
  intros H. rewrite <- (Z.lxor_0_r x) in H at 2.
  by apply lxor_cancel_l in H.
Qed.

End Checksum.

(** C5: for every buffer of bytes, [wlCrc32] is the CRC-32 of polynomial
    0xEDB88320 seeded with 0xFFFFFFFF (per byte an XOR into the low byte and
    eight shift rounds) whose final accumulator is returned as it is, so it
    never equals the complemented, conventional value; and replacing any
    single byte by a different byte changes the checksum. *)
Theorem wlCrc32_engine (buf : Buffer) :
  Forall is_u8 buf →
  wlCrc32 buf = CrcSpec.crc32 buf ∧
  wlCrc32 buf ≠ CrcSpec.crc32_conventional buf ∧
  ∀ (k : nat) (b b' : Z),
    buf !! k = Some b → is_u8 b' → b' ≠ b →
    wlCrc32 (<[k:=b']> buf) ≠ wlCrc32 buf.
Proof.
  intros Hbuf. split; [by apply wlCrc32_refines|]. split.
  - rewrite wlCrc32_refines by done. unfold CrcSpec.crc32_conventional.
    intros H. symmetry in H. by apply complement_differs in H.
  - intros k b b' Hk Hb' Hne.
    rewrite !wlCrc32_refines; [by eapply crc32_avalanche|done|].
    apply Forall_insert; done.
Qed.

Lemma wlCrc32_engine_witness :
  wlCrc32 (replicate 32 0) = CrcSpec.crc32 (replicate 32 0) ∧
  wlCrc32 (<[5%nat:=1]> (replicate 32 0)) ≠ wlCrc32 (replicate 32 0).
Proof.
  assert (Hbuf : Forall is_u8 (replicate 32 0)).
  { apply Forall_replicate. unfold is_u8. lia. }
  destruct (wlCrc32_engine (replicate 32 0) Hbuf) as (Heq & _ & Hchange).
  split; [exact Heq|].
  apply (Hchange 5%nat 0 1); [reflexivity|unfold is_u8; lia|lia].
Defined.

Example crc_check_value :
  wlCrc32 [49; 50; 51; 52; 53; 54; 55; 56; 57] = 0x340BC6D9.
Proof. by vm_compute. Qed.

Example crc_zero_vector : wlCrc32 (replicate 32 0) = 0xE6F5AA52.
Proof. by vm_compute. Qed.

Example crc_empty : wlCrc32 [] = 0xFFFFFFFF.
Proof. reflexivity. Qed.

(** ** Layout calculator *)

Section Layout.

Variables partitionSize sectorSize : Z.
Hypothesis sector_pos : 0 < sectorSize.

Let L := calculateWLLayout partitionSize sectorSize.

Lemma ceil_div_ge a : a <= Math.ceil_div a sectorSize * sectorSize.
Proof.
  unfold Math.ceil_div.
  pose proof (Z.mul_div_le (- a) sectorSize sector_pos). lia.
Qed.

Lemma floor_div_le a : Math.floor_div a sectorSize * sectorSize <= a.
Proof.
  unfold Math.floor_div.
  pose proof (Z.mul_div_le a sectorSize sector_pos). lia.
Qed.

Lemma cfgSize_ge : 36 <= cfgSize L.
Proof. apply ceil_div_ge. Qed.

Lemma stateSize_ge : 0 <= partitionSize → 64 <= stateSize L.
Proof.
  intros HP. simpl.
  pose proof (ceil_div_ge (64 + Math.floor_div partitionSize sectorSize * 4)).
  assert (0 <= Math.floor_div partitionSize sectorSize)
    by (apply Z.div_pos; lia).
  lia.
Qed.

Lemma layout_addresses :
  addrCfg L + cfgSize L = partitionSize ∧
  addrState2 L + stateSize L = addrCfg L ∧
  addrState1 L + stateSize L = addrState2 L.
Proof. simpl. lia. Qed.

Lemma flashSize_eq :
  flashSize L = (Math.floor_div (addrState1 L) sectorSize - 1) * sectorSize.
Proof. reflexivity. Qed.

(** The dummy sector and the data sectors end before the first state. *)
Lemma flashSize_fits : sectorSize + flashSize L <= addrState1 L.
Proof. rewrite flashSize_eq. pose proof (floor_div_le (addrState1 L)). lia. Qed.

Lemma flashSize_lt : 0 <= partitionSize → flashSize L < partitionSize.
Proof.
  intros HP.
  pose proof flashSize_fits. pose proof cfgSize_ge. pose proof (stateSize_ge HP).
  pose proof layout_addresses. lia.
Qed.

Lemma maxPos_eq : maxPos L = Math.floor_div (addrState1 L) sectorSize.
Proof.
  change (maxPos L) with (Math.floor_div (flashSize L) sectorSize + 1).
  rewrite flashSize_eq. unfold Math.floor_div at 1.
  rewrite Z.div_mul by lia. lia.
Qed.

Lemma maxPos_range :
  0 <= partitionSize → 0 <= flashSize L → 1 <= maxPos L <= partitionSize.
Proof.
  intros HP HF. rewrite maxPos_eq.
  pose proof (floor_div_le (addrState1 L)).
  pose proof flashSize_eq. pose proof (flashSize_lt HP).
  pose proof flashSize_fits.
  nia.
Qed.

End Layout.

(** C3: for every partition size and every positive sector size, the layout
    has [addrCfg + cfgSize = partitionSize],
    [addrState2 + stateSize = addrCfg], [addrState1 + stateSize = addrState2],
    [flashSize = (floor (addrState1 / sectorSize) - 1) * sectorSize], and
    [flashSize] is strictly less than [partitionSize]. *)
Theorem layout_invariant (partitionSize sectorSize : Z) :
  0 < sectorSize → 0 <= partitionSize →
  let L := calculateWLLayout partitionSize sectorSize in
  addrCfg L + cfgSize L = partitionSize ∧
  addrState2 L + stateSize L = addrCfg L ∧
  addrState1 L + stateSize L = addrState2 L ∧
  flashSize L = (Math.floor_div (addrState1 L) sectorSize - 1) * sectorSize ∧
  flashSize L < partitionSize.
Proof.
  intros Hs HP L.
  destruct (layout_addresses partitionSize sectorSize) as (H1 & H2 & H3).
  repeat split; try done.
  by apply flashSize_lt.
Qed.

Lemma layout_invariant_witness :
  let L := calculateWLLayout 0x170000 default_sectorSize in
  0 < flashSize L ∧
  addrCfg L + cfgSize L = 0x170000 ∧
  addrState2 L + stateSize L = addrCfg L ∧
  addrState1 L + stateSize L = addrState2 L ∧
  flashSize L < 0x170000.
Proof.
  pose proof (layout_invariant 0x170000 default_sectorSize) as H.
  cbv zeta in H.
  destruct H as (H1 & H2 & H3 & _ & H5).
  - unfold default_sectorSize. lia.
  - lia.
  - split; [by vm_compute|].
    split; [exact H1|]. split; [exact H2|]. split; [exact H3|exact H5].
Defined.

(** C4: for [partitionSize = 0x170000] and [sectorSize = 4096], [cfgSize] is
    4096 and [flashSize] is [partitionSize - 2 * stateSize - cfgSize] minus
    exactly one sector of 4096 bytes. *)
Theorem layout_0x170000 :
  let partitionSize := 0x170000 in
  let L := calculateWLLayout partitionSize 4096 in
  partitionSize = 1507328 ∧
  cfgSize L = 4096 ∧
  flashSize L = partitionSize - 2 * stateSize L - cfgSize L - 4096 ∧
  flashSize L < partitionSize - 2 * stateSize L - cfgSize L.
Proof. by vm_compute. Qed.

(** ** Buffer methods *)

Section BufferMethods.

Import RecordSpec.

Lemma bind_Ok {A B} (a : A) (f : A → result B) : (Ok a ≫= f) = f a.
Proof. reflexivity. Qed.

Lemma bind_Throw {A B} e (f : A → result B) : (Throw e ≫= f) = Throw e.
Proof. reflexivity. Qed.

Lemma alloc_ok size fill :
  0 <= size → Buf.alloc size fill = Ok (replicate (Z.to_nat size) (fill mod 256)).
Proof. intros H. unfold Buf.alloc. by destruct (Z.ltb_spec size 0); [lia|]. Qed.

Lemma alloc_negative size fill : size < 0 → Buf.alloc size fill = Throw RangeError.
Proof. intros H. unfold Buf.alloc. by destruct (Z.ltb_spec size 0); [|lia]. Qed.

Lemma copy_ok source target targetStart :
  0 <= targetStart →
  Buf.copy source target targetStart =
  Ok (list_inserts (Z.to_nat targetStart) source target).
Proof. intros H. unfold Buf.copy. by destruct (Z.ltb_spec targetStart 0); [lia|]. Qed.

Lemma writeUInt32LE_ok buf value offset :
  is_u32 value → 0 <= offset → offset + 4 <= Buf.length buf →
  Buf.writeUInt32LE buf value offset =
  Ok (list_inserts (Z.to_nat offset) (u32le value) buf).
Proof.
  intros Hv Ho Hlen. unfold Buf.writeUInt32LE.
  assert (H1 : is_u32 (value / 256)).
  { unfold is_u32 in *. split; [apply Z.div_pos; lia|].
    apply Z.lt_succ_r, Z.div_lt_upper_bound; lia. }
  assert (H2 : is_u32 (value / 256 / 256)).
  { unfold is_u32 in *. split; [apply Z.div_pos; lia|].
    apply Z.lt_succ_r, Z.div_lt_upper_bound; lia. }
  destruct (Z.ltb_spec value 0); [unfold is_u32 in Hv; lia|].
  destruct (Z.ltb_spec 4294967295 value); [unfold is_u32 in Hv; lia|].
  destruct (Z.ltb_spec offset 0); [lia|].
  destruct (Z.ltb_spec (Buf.length buf) (offset + 4)); [lia|].
  cbv zeta. simpl orb. cbv iota.
  rewrite (ushr_8 value), (ushr_8 (value / 256)), (ushr_8 (value / 256 / 256)) by done.
  unfold u32le. rewrite !Z.div_div by lia. reflexivity.
Qed.

Lemma writeUInt32LE_range buf value offset :
  ¬ is_u32 value → Buf.writeUInt32LE buf value offset = Throw RangeError.
Proof.
  intros Hv. unfold Buf.writeUInt32LE, is_u32 in *.
  destruct (Z.ltb_spec value 0); [done|].
  destruct (Z.ltb_spec 4294967295 value); [done|]. lia.
Qed.

Lemma u32le_length v : length (u32le v) = 4%nat.
Proof. reflexivity. Qed.

Lemma u32le_bytes v : Forall is_u8 (u32le v).
Proof.
  unfold u32le, is_u8. repeat constructor; apply Z.mod_pos_bound; lia.
Qed.

(** Reading a field back gives the value written. *)
Lemma u32le_decode v : is_u32 v → Buf.readUInt32LE (u32le v) 0 = Some v.
Proof.
  intros Hv. unfold is_u32 in Hv.
  change (Buf.readUInt32LE (u32le v) 0) with
    (Some (v mod 256 + 256 * (v / 256 mod 256) + 65536 * (v / 65536 mod 256)
           + 16777216 * (v / 16777216 mod 256))).
  f_equal.
  assert (E2 : v / 65536 = v / 256 / 256) by (by rewrite Z.div_div by lia).
  assert (E3 : v / 16777216 = v / 256 / 256 / 256) by (by rewrite !Z.div_div by lia).
  rewrite E2, E3.
  assert (v / 256 / 256 / 256 mod 256 = v / 256 / 256 / 256).
  { apply Z.mod_small. rewrite <- E3.
    split; [apply Z.div_pos; lia|apply Z.div_lt_upper_bound; lia]. }
  pose proof (Z.div_mod v 256).
  pose proof (Z.div_mod (v / 256) 256).
  pose proof (Z.div_mod (v / 256 / 256) 256).
  lia.
Qed.

End BufferMethods.

(** ** Image assembler *)

Section Assembler.

Import RecordSpec.

Variables (fatImage : Buffer) (partitionSize sectorSize : Z).
Hypothesis sector_pos : 0 < sectorSize.

Let L := calculateWLLayout partitionSize sectorSize.

Ltac buf_len :=
  unfold Buf.length;
  rewrite ?length_inserts, ?length_app, ?u32le_length, ?length_replicate;
  simpl length; lia.

Ltac write_step :=
  rewrite writeUInt32LE_ok; [rewrite bind_Ok; cbv beta | unfold is_u32; lia | lia | buf_len ].

Lemma config_chain v1 v2 v3 v4 v5 v6 v7 v8 :
  list_inserts (Z.to_nat 28) (u32le v8)
   (list_inserts (Z.to_nat 24) (u32le v7)
    (list_inserts (Z.to_nat 20) (u32le v6)
     (list_inserts (Z.to_nat 16) (u32le v5)
      (list_inserts (Z.to_nat 12) (u32le v4)
       (list_inserts (Z.to_nat 8) (u32le v3)
        (list_inserts (Z.to_nat 4) (u32le v2)
         (list_inserts (Z.to_nat 0) (u32le v1)
           (replicate (Z.to_nat 36) (0 mod 256))))))))) =
  (u32le v1 ++ u32le v2 ++ u32le v3 ++ u32le v4 ++
   u32le v5 ++ u32le v6 ++ u32le v7 ++ u32le v8) ++ [0; 0; 0; 0].
Proof. reflexivity. Qed.

Lemma state_chain v1 v2 v3 v4 v5 v6 v7 v8 :
  list_inserts (Z.to_nat 28) (u32le v8)
   (list_inserts (Z.to_nat 24) (u32le v7)
    (list_inserts (Z.to_nat 20) (u32le v6)
     (list_inserts (Z.to_nat 16) (u32le v5)
      (list_inserts (Z.to_nat 12) (u32le v4)
       (list_inserts (Z.to_nat 8) (u32le v3)
        (list_inserts (Z.to_nat 4) (u32le v2)
         (list_inserts (Z.to_nat 0) (u32le v1)
           (replicate (Z.to_nat 64) (0 mod 256))))))))) =
  (u32le v1 ++ u32le v2 ++ u32le v3 ++ u32le v4 ++
   u32le v5 ++ u32le v6 ++ u32le v7 ++ u32le v8 ++ replicate 28 0) ++ [0; 0; 0; 0].
Proof. reflexivity. Qed.

Lemma subarray_fields (fields rest : Buffer) n :
  Z.of_nat (length fields) = n → Buf.subarray (fields ++ rest) 0 n = fields.
Proof.
  intros Hn. unfold Buf.subarray. rewrite Z.sub_0_r. change (Z.to_nat 0) with 0%nat.
  rewrite drop_0. apply take_app_length'. lia.
Qed.

Lemma write_checksum (fields : Buffer) n v :
  Z.of_nat (length fields) = n →
  list_inserts (Z.to_nat n) (u32le v) (fields ++ [0; 0; 0; 0]) = fields ++ u32le v.
Proof.
  intros Hn. replace (Z.to_nat n) with (length fields + 0)%nat by lia.
  by rewrite list_inserts_app_r.
Qed.

Lemma wrap_ok :
  is_u32 partitionSize →
  Buf.length fatImage = flashSize L →
  wrapWithWearLeveling fatImage partitionSize sectorSize =
  Ok (assembled fatImage partitionSize sectorSize).
Proof.
  intros HP Hlen.
  assert (HF : 0 <= flashSize L) by (rewrite <- Hlen; unfold Buf.length; lia).
  pose proof (flashSize_fits partitionSize sectorSize sector_pos) as Hfit.
  pose proof (cfgSize_ge partitionSize sectorSize sector_pos) as Hcfg.
  assert (HP0 : 0 <= partitionSize) by (unfold is_u32 in HP; lia).
  pose proof (stateSize_ge partitionSize sectorSize sector_pos HP0) as Hst.
  pose proof (layout_addresses partitionSize sectorSize) as (Ha1 & Ha2 & Ha3).
  pose proof (maxPos_range partitionSize sectorSize sector_pos HP0 HF) as Hmax.
  fold L in Hfit, Hcfg, Hst, Ha1, Ha2, Ha3, Hmax.
  unfold is_u32 in HP.
  unfold wrapWithWearLeveling. fold L. cbv zeta.
  rewrite (proj2 (Z.eqb_eq _ _) Hlen). cbv [negb].
  rewrite (alloc_ok partitionSize), (alloc_ok 36), (alloc_ok 64) by lia.
  rewrite bind_Ok. cbv beta.
  rewrite copy_ok, bind_Ok by lia. cbv beta.
  rewrite bind_Ok. cbv beta.
  do 8 write_step.
  rewrite config_chain.
  rewrite (subarray_fields _ _ 32) by reflexivity.
  fold (config_fields partitionSize sectorSize).
  pose proof (wlCrc32_u32 (config_fields partitionSize sectorSize)) as Hcrc.
  unfold is_u32 in Hcrc.
  write_step.
  rewrite (write_checksum _ 32) by reflexivity.
  fold (config_record partitionSize sectorSize).
  rewrite copy_ok, bind_Ok by lia. cbv beta.
  rewrite bind_Ok. cbv beta.
  do 8 write_step.
  rewrite state_chain.
  rewrite (subarray_fields _ _ 60) by reflexivity.
  change (u32le 0 ++ u32le (maxPos L) ++ u32le 0 ++ u32le 0 ++ u32le 16 ++
          u32le sectorSize ++ u32le 2 ++
          u32le (wlCrc32 (config_fields partitionSize sectorSize)) ++
          replicate 28 0)
    with (state_fields partitionSize sectorSize).
  pose proof (wlCrc32_u32 (state_fields partitionSize sectorSize)) as Hcrc'.
  unfold is_u32 in Hcrc'.
  write_step.
  rewrite (write_checksum _ 60) by reflexivity.
  fold (state_record partitionSize sectorSize).
  rewrite copy_ok, bind_Ok by lia. cbv beta.
  rewrite copy_ok, bind_Ok by lia. cbv beta.
  reflexivity.
Qed.

Lemma wrap_mismatch :
  Buf.length fatImage ≠ flashSize L →
  wrapWithWearLeveling fatImage partitionSize sectorSize =
  Throw (SizeMismatch (Buf.length fatImage) (flashSize L)).
Proof.
  intros Hne. unfold wrapWithWearLeveling. fold L. cbv zeta.
  by rewrite (proj2 (Z.eqb_neq _ _) Hne).
Qed.

Lemma wrap_range_error :
  Buf.length fatImage = flashSize L → ¬ is_u32 partitionSize →
  wrapWithWearLeveling fatImage partitionSize sectorSize = Throw RangeError.
Proof.
  intros Hlen HP. unfold wrapWithWearLeveling. fold L. cbv zeta.
  rewrite (proj2 (Z.eqb_eq _ _) Hlen). cbv [negb].
  destruct (Z.lt_ge_cases partitionSize 0) as [Hneg|Hpos].
  - by rewrite (alloc_negative partitionSize).
  - rewrite (alloc_ok partitionSize), (alloc_ok 36) by lia.
    rewrite bind_Ok. cbv beta.
    rewrite copy_ok, bind_Ok by lia. cbv beta.
    rewrite bind_Ok. cbv beta.
    write_step.
    by rewrite writeUInt32LE_range.
Qed.

Lemma wrap_inv image :
  wrapWithWearLeveling fatImage partitionSize sectorSize = Ok image →
  Buf.length fatImage = flashSize L ∧ is_u32 partitionSize ∧
  image = assembled fatImage partitionSize sectorSize.
Proof.
  intros Hok.
  destruct (decide (Buf.length fatImage = flashSize L)) as [Hlen|Hne];
    [|by rewrite wrap_mismatch in Hok].
  destruct (decide (is_u32 partitionSize)) as [HP|HP];
    [|by rewrite wrap_range_error in Hok].
  rewrite wrap_ok in Hok by done. by injection Hok as <-.
Qed.

End Assembler.

(** ** Regions of the assembled image *)

Section Windows.

Context {A : Type}.
Implicit Types l k : list A.

Lemma window_inserts_same l k (a : nat) :
  (a + length k ≤ length l)%nat →
  take (length k) (drop a (list_inserts a k l)) = k.
Proof.
  intros H. apply list_eq. intros i.
  destruct (decide (i < length k)%nat).
  - rewrite lookup_take_lt, lookup_drop, list_lookup_inserts by lia.
    f_equal. lia.
  - rewrite lookup_take_ge by lia. symmetry. apply lookup_ge_None. lia.
Qed.

Lemma window_inserts_other l k (a b n : nat) :
  (b + n ≤ a ∨ a + length k ≤ b)%nat →
  take n (drop b (list_inserts a k l)) = take n (drop b l).
Proof.
  intros H. apply list_eq. intros i. rewrite !lookup_take.
  case_decide; [|done]. rewrite !lookup_drop.
  destruct H; [apply list_lookup_inserts_lt|apply list_lookup_inserts_ge]; lia.
Qed.

Lemma lookup_inserts_outside l k (a j : nat) :
  ¬ (a ≤ j < a + length k)%nat → list_inserts a k l !! j = l !! j.
Proof.
  intros H. destruct (decide (j < a)%nat).
  - by apply list_lookup_inserts_lt.
  - apply list_lookup_inserts_ge. lia.
Qed.

End Windows.

Lemma subarray_window (buf : Buffer) a n :
  Buf.subarray buf a (a + n) = take (Z.to_nat n) (drop (Z.to_nat a) buf).
Proof. unfold Buf.subarray. do 2 f_equal. lia. Qed.

Lemma get_lookup (buf : Buffer) i :
  0 <= i → Buf.get buf i = buf !! Z.to_nat i.
Proof. intros H. unfold Buf.get. by destruct (Z.ltb_spec i 0); [lia|]. Qed.

Section Regions.

Import RecordSpec.

Variables (fatImage : Buffer) (partitionSize sectorSize : Z).
Hypothesis sector_pos : 0 < sectorSize.
Hypothesis partition_u32 : is_u32 partitionSize.

Let L := calculateWLLayout partitionSize sectorSize.

Hypothesis image_fits : Buf.length fatImage = flashSize L.

Let image := assembled fatImage partitionSize sectorSize.

Lemma config_record_length : length (config_record partitionSize sectorSize) = 36%nat.
Proof. reflexivity. Qed.

Lemma state_record_length : length (state_record partitionSize sectorSize) = 64%nat.
Proof. reflexivity. Qed.

(** The regions lie in this order, without overlap, inside the partition. *)
Lemma regions :
  0 <= flashSize L ∧
  sectorSize + flashSize L <= addrState1 L ∧
  addrState1 L + 64 <= addrState1 L + stateSize L ∧
  addrState1 L + stateSize L = addrState2 L ∧
  addrState2 L + 64 <= addrState2 L + stateSize L ∧
  addrState2 L + stateSize L = addrCfg L ∧
  addrCfg L + 36 <= partitionSize.
Proof.
  assert (HP0 : 0 <= partitionSize) by (unfold is_u32 in partition_u32; lia).
  pose proof (flashSize_fits partitionSize sectorSize sector_pos) as Hfit.
  pose proof (cfgSize_ge partitionSize sectorSize sector_pos) as Hcfg.
  pose proof (stateSize_ge partitionSize sectorSize sector_pos HP0) as Hst.
  pose proof (layout_addresses partitionSize sectorSize) as (Ha1 & Ha2 & Ha3).
  fold L in Hfit, Hcfg, Hst, Ha1, Ha2, Ha3.
  assert (0 <= flashSize L) by (rewrite <- image_fits; unfold Buf.length; lia).
  lia.
Qed.

Lemma image_length : Buf.length image = partitionSize.
Proof.
  unfold Buf.length, image, assembled. cbv zeta. rewrite !length_inserts, length_replicate.
  unfold is_u32 in partition_u32. lia.
Qed.

Lemma image_raw :
  Buf.subarray image sectorSize (sectorSize + flashSize L) = fatImage.
Proof.
  pose proof regions as R. unfold Buf.length in image_fits.
  rewrite subarray_window. unfold image, assembled. cbv zeta. fold L.
  rewrite !window_inserts_other
    by (rewrite ?config_record_length, ?state_record_length; lia).
  replace (Z.to_nat (flashSize L)) with (length fatImage) by lia.
  apply window_inserts_same. rewrite length_replicate. lia.
Qed.

Lemma image_config :
  Buf.subarray image (addrCfg L) (addrCfg L + 36) =
  config_record partitionSize sectorSize.
Proof.
  pose proof regions as R. unfold Buf.length in image_fits.
  rewrite subarray_window. unfold image, assembled. cbv zeta. fold L.
  rewrite !window_inserts_other
    by (rewrite ?config_record_length, ?state_record_length; lia).
  apply (window_inserts_same _ (config_record partitionSize sectorSize)).
  rewrite length_inserts, length_replicate, config_record_length. lia.
Qed.

Lemma image_state1 :
  Buf.subarray image (addrState1 L) (addrState1 L + 64) =
  state_record partitionSize sectorSize.
Proof.
  pose proof regions as R. unfold Buf.length in image_fits.
  rewrite subarray_window. unfold image, assembled. cbv zeta. fold L.
  rewrite window_inserts_other
    by (rewrite ?config_record_length, ?state_record_length; lia).
  apply (window_inserts_same _ (state_record partitionSize sectorSize)).
  rewrite !length_inserts, length_replicate, state_record_length. lia.
Qed.

Lemma image_state2 :
  Buf.subarray image (addrState2 L) (addrState2 L + 64) =
  state_record partitionSize sectorSize.
Proof.
  pose proof regions as R. unfold Buf.length in image_fits.
  rewrite subarray_window. unfold image, assembled. cbv zeta. fold L.
  apply (window_inserts_same _ (state_record partitionSize sectorSize)).
  rewrite !length_inserts, length_replicate, state_record_length. lia.
Qed.

(** Outside the four written regions the image is erased flash. *)
Lemma image_erased i :
  0 <= i < partitionSize →
  ¬ (sectorSize <= i < sectorSize + flashSize L) →
  ¬ (addrCfg L <= i < addrCfg L + 36) →
  ¬ (addrState1 L <= i < addrState1 L + 64) →
  ¬ (addrState2 L <= i < addrState2 L + 64) →
  Buf.get image i = Some 255.
Proof.
  intros Hi Hraw Hcfg Hs1 Hs2.
  pose proof regions as R. unfold Buf.length in image_fits.
  rewrite get_lookup by lia. unfold image, assembled. cbv zeta. fold L.
  rewrite !lookup_inserts_outside
    by (rewrite ?config_record_length, ?state_record_length; lia).
  apply lookup_replicate_2. lia.
Qed.

End Regions.

(** C1: for every partition size that fits the 32-bit fields of the records,
    every positive sector size and every raw image whose length is
    [flashSize], the assembler returns a buffer of exactly [partitionSize]
    bytes in which the bytes from [sectorSize] to [sectorSize + flashSize]
    are the raw image, the first sector is 0xFF throughout, and every byte
    outside the raw image, the 36-byte config record and the two 64-byte
    state headers is 0xFF; so are the position tables behind both headers. *)
Theorem assembler_output (fatImage : Buffer) (partitionSize sectorSize : Z) :
  0 < sectorSize → is_u32 partitionSize →
  let L := calculateWLLayout partitionSize sectorSize in
  Buf.length fatImage = flashSize L →
  ∃ image,
    wrapWithWearLeveling fatImage partitionSize sectorSize = Ok image ∧
    Buf.length image = partitionSize ∧
    Buf.subarray image sectorSize (sectorSize + flashSize L) = fatImage ∧
    (∀ i, 0 <= i < sectorSize → Buf.get image i = Some 0xFF) ∧
    (∀ i, 0 <= i < partitionSize →
       ¬ (sectorSize <= i < sectorSize + flashSize L) →
       ¬ (addrCfg L <= i < addrCfg L + 36) →
       ¬ (addrState1 L <= i < addrState1 L + 64) →
       ¬ (addrState2 L <= i < addrState2 L + 64) →
       Buf.get image i = Some 0xFF) ∧
    (∀ i, addrState1 L + 64 <= i < addrState1 L + stateSize L ∨
          addrState2 L + 64 <= i < addrState2 L + stateSize L →
       Buf.get image i = Some 0xFF).
Proof.
  intros Hs HP L Hlen.
  pose proof (regions fatImage partitionSize sectorSize Hs HP Hlen) as R.
  fold L in R.
  exists (assembled fatImage partitionSize sectorSize).
  split; [by apply wrap_ok|].
  split; [by apply image_length|].
  split; [by apply image_raw|].
  repeat split; intros i Hi; apply image_erased; try done; fold L; lia.
Qed.

Lemma assembler_output_witness :
  ∃ image,
    wrapWithWearLeveling (replicate 4096 7) 20480 4096 = Ok image ∧
    Buf.length image = 20480 ∧
    Buf.subarray image 4096 8192 = replicate 4096 7.
Proof.
  destruct (assembler_output (replicate 4096 7) 20480 4096)
    as (image & Hok & Hlen & Hraw & _).
  - lia.
  - unfold is_u32. lia.
  - reflexivity.
  - exists image. repeat split; assumption.
Defined.

(** C2: in every assembled image the 36 bytes at [addrCfg] are the eight
    little-endian fields 0, partitionSize, sectorSize, sectorSize, 16, 16, 2,
    32 followed by the checksum of these 32 bytes; the 64 bytes at
    [addrState1] and at [addrState2] are the same, namely the fields 0,
    maxPos, 0, 0, 16, sectorSize, 2, the checksum of the first 32 config
    bytes, 28 zero bytes and the checksum of the preceding 60 bytes. Every
    value written fits its 32-bit field. *)
Theorem assembler_records
    (fatImage : Buffer) (partitionSize sectorSize : Z) (image : Buffer) :
  0 < sectorSize →
  wrapWithWearLeveling fatImage partitionSize sectorSize = Ok image →
  let L := calculateWLLayout partitionSize sectorSize in
  let u32le := RecordSpec.u32le in
  let config := Buf.subarray image (addrCfg L) (addrCfg L + 36) in
  let state1 := Buf.subarray image (addrState1 L) (addrState1 L + 64) in
  let state2 := Buf.subarray image (addrState2 L) (addrState2 L + 64) in
  let device_id := wlCrc32 (Buf.subarray config 0 32) in
  config =
    u32le 0 ++ u32le partitionSize ++ u32le sectorSize ++ u32le sectorSize ++
    u32le 16 ++ u32le 16 ++ u32le 2 ++ u32le 32 ++
    u32le (wlCrc32 (Buf.subarray config 0 32)) ∧
  state1 = state2 ∧
  state1 =
    u32le 0 ++ u32le (maxPos L) ++ u32le 0 ++ u32le 0 ++ u32le 16 ++
    u32le sectorSize ++ u32le 2 ++ u32le device_id ++ replicate 28 0 ++
    u32le (wlCrc32 (Buf.subarray state1 0 60)) ∧
  is_u32 partitionSize ∧ is_u32 sectorSize ∧ is_u32 (maxPos L).
Proof.
  intros Hs Hok L u32le config state1 state2 device_id.
  apply wrap_inv in Hok as (Hlen & HP & ->); [|done].
  pose proof (regions fatImage partitionSize sectorSize Hs HP Hlen) as R.
  fold L in R.
  assert (Hconfig : config = RecordSpec.config_record partitionSize sectorSize)
    by (by apply image_config).
  assert (Hstate1 : state1 = RecordSpec.state_record partitionSize sectorSize)
    by (by apply image_state1).
  assert (Hstate2 : state2 = RecordSpec.state_record partitionSize sectorSize)
    by (by apply image_state2).
  assert (Hid : device_id = wlCrc32 (RecordSpec.config_fields partitionSize sectorSize)).
  { unfold device_id. rewrite Hconfig. unfold RecordSpec.config_record. cbv zeta.
    by rewrite (subarray_fields _ _ 32). }
  split; [|split; [|split]].
  - fold device_id. rewrite Hid, Hconfig.
    unfold RecordSpec.config_record, RecordSpec.config_fields. cbv zeta.
    by rewrite <- !app_assoc.
  - by rewrite Hstate1, Hstate2.
  - rewrite Hid, Hstate1. unfold RecordSpec.state_record. cbv zeta.
    rewrite (subarray_fields _ _ 60) by reflexivity.
    unfold RecordSpec.state_fields. cbv zeta. fold L.
    by rewrite <- !app_assoc.
  - assert (HP0 : 0 <= partitionSize) by (unfold is_u32 in HP; lia).
    pose proof (maxPos_range partitionSize sectorSize Hs HP0) as Hmax.
    fold L in Hmax. unfold is_u32 in *. lia.
Qed.

Lemma assembler_records_witness :
  let image := assembled (replicate 640 7) 1024 64 in
  Buf.subarray image 704 (704 + 64) = Buf.subarray image 832 (832 + 64) ∧
  Buf.readUInt32LE image (960 + 4) = Some 1024.
Proof.
  assert (Hok : wrapWithWearLeveling (replicate 640 7) 1024 64 =
                Ok (assembled (replicate 640 7) 1024 64))
    by (vm_compute; reflexivity).
  pose proof (assembler_records (replicate 640 7) 1024 64 _ ltac:(lia) Hok)
    as (_ & Hsame & _).
  split; [exact Hsame|vm_compute; reflexivity].
Defined.

(** C7: a raw image whose length differs from [flashSize] makes the
    assembler throw the size-mismatch error; no buffer is produced, nothing
    is truncated or padded. *)
Theorem assembler_size_mismatch (fatImage : Buffer) (partitionSize sectorSize : Z) :
  let expected := flashSize (calculateWLLayout partitionSize sectorSize) in
  Buf.length fatImage ≠ expected →
  wrapWithWearLeveling fatImage partitionSize sectorSize =
  Throw (SizeMismatch (Buf.length fatImage) expected).
Proof. intros expected Hne. by apply wrap_mismatch. Qed.

Lemma assembler_size_mismatch_witness :
  wrapWithWearLeveling (replicate 4097 7) 20480 4096 =
  Throw (SizeMismatch 4097 4096).
Proof.
  apply (assembler_size_mismatch (replicate 4097 7) 20480 4096).
  vm_compute. discriminate.
Defined.

(** ** Strings *)

Section Strings.

Import TableSpec.
Implicit Types s needle pre post : jsstring.
Implicit Types c : ascii.

Lemma startsWith_nil s : Str.startsWith s [] = true.
Proof. by destruct s. Qed.

Lemma startsWith_spec s needle :
  Str.startsWith s needle = true ↔ ∃ post, s = needle ++ post.
Proof.
  revert s. induction needle as [|a needle IH]; intros s; simpl.
  - split; [by exists s|by destruct s].
  - destruct s as [|b s]; simpl.
    + split; [done|]. by intros [post ?].
    + case_decide as Hne; [subst b|].
      * rewrite IH. split; intros [post Hp]; exists post; simpl; congruence.
      * split; [done|]. intros [post Hp]. simpl in Hp. congruence.
Qed.

Lemma contains_cons needle c s :
  contains needle (c :: s) ↔
  Str.startsWith (c :: s) needle = true ∨ contains needle s.
Proof.
  rewrite startsWith_spec. unfold contains. split.
  - intros ([|x pre] & post & Heq).
    + left. by exists post.
    + right. exists pre, post. simpl in Heq. congruence.
  - intros [[post Heq]|(pre & post & Heq)].
    + by exists [], post.
    + exists (c :: pre), post. by rewrite Heq.
Qed.

Lemma contains_nil needle : contains needle [] ↔ Str.startsWith [] needle = true.
Proof.
  rewrite startsWith_spec. unfold contains. split.
  - intros (pre & post & Heq). symmetry in Heq.
    apply app_eq_nil in Heq as [-> Heq]. by exists post.
  - intros [post Heq]. by exists [], post.
Qed.

Lemma indexOf_from_eq s needle i :
  Str.indexOf_from s needle i =
  if Str.startsWith s needle then i
  else match s with
       | [] => -1
       | _ :: t => Str.indexOf_from t needle (i + 1)
       end.
Proof. by destruct s. Qed.

Lemma indexOf_from_range s needle i :
  0 <= i → Str.indexOf_from s needle i = -1 ∨ i <= Str.indexOf_from s needle i.
Proof.
  revert i. induction s as [|c s IH]; intros i Hi; rewrite indexOf_from_eq.
  - destruct (Str.startsWith [] needle); lia.
  - destruct (Str.startsWith (c :: s) needle); [lia|].
    destruct (IH (i + 1)); lia.
Qed.

Lemma indexOf_from_contains s needle i :
  0 <= i → 0 <= Str.indexOf_from s needle i ↔ contains needle s.
Proof.
  revert i. induction s as [|c s IH]; intros i Hi.
  - rewrite contains_nil, indexOf_from_eq.
    destruct (Str.startsWith [] needle); [done|].
    split; [lia|done].
  - rewrite contains_cons, indexOf_from_eq.
    destruct (Str.startsWith (c :: s) needle) eqn:Hsw.
    + split; [by left|lia].
    + rewrite IH by lia. split; [by right|]. by intros [?|?].
Qed.

(** [indexOf] finds the needle exactly when it occurs. *)
Lemma indexOf_contains s needle :
  (0 <=? Str.indexOf s needle) = true ↔ contains needle s.
Proof. rewrite Z.leb_le. by apply indexOf_from_contains. Qed.

Lemma indexOf_not_contains s needle :
  (0 <=? Str.indexOf s needle) = false ↔ ¬ contains needle s.
Proof. rewrite <- indexOf_contains. by destruct (0 <=? _). Qed.

(** A needle of one character. *)

Lemma contains_char c s : contains [c] s ↔ c ∈ s.
Proof.
  unfold contains. split.
  - intros (pre & post & ->). set_solver.
  - intros (pre & post & ->)%list_elem_of_split. by exists pre, post.
Qed.

Lemma indexOf_from_char s c i :
  c ∈ s → Str.indexOf_from s [c] i = i + Z.of_nat (length (before c s)).
Proof.
  revert i. induction s as [|x s IH]; intros i Hin; [by apply elem_of_nil in Hin|].
  rewrite indexOf_from_eq. simpl. destruct (decide (c = x)) as [->|Hne].
  - rewrite !decide_True by done. rewrite startsWith_nil. simpl. lia.
  - rewrite !decide_False by done.
    rewrite IH by (by apply elem_of_cons in Hin as [?|?]). simpl. lia.
Qed.

Lemma take_before c s : take (length (before c s)) s = before c s.
Proof.
  induction s as [|x s IH]; simpl; [done|].
  destruct (decide (x = c)); simpl; [done|]. by rewrite IH.
Qed.

Lemma before_length c s : (length (before c s) ≤ length s)%nat.
Proof.
  induction s as [|x s IH]; simpl; [done|].
  destruct (decide (x = c)); simpl; lia.
Qed.

Lemma before_absent c s : c ∉ s → before c s = s.
Proof.
  induction s as [|x s IH]; simpl; [done|]. intros Hnin.
  rewrite decide_False by set_solver. f_equal. apply IH. set_solver.
Qed.

Lemma before_split c pre post : c ∉ pre → before c (pre ++ [c] ++ post) = pre.
Proof.
  induction pre as [|x pre IH]; simpl; intros Hnin.
  - by rewrite decide_True.
  - rewrite decide_False by set_solver. f_equal. apply IH. set_solver.
Qed.

(** [s.substring(0, s.indexOf(c))] is the text before the first [c]. *)
Lemma substring_indexOf_char s c :
  c ∈ s → Str.substring s 0 (Str.indexOf s [c]) = before c s.
Proof.
  intros Hin. unfold Str.indexOf. rewrite indexOf_from_char by done.
  unfold Str.substring. cbv zeta. pose proof (before_length c s).
  rewrite Z.add_0_l.
  replace (Z.max 0 0 `min` Z.of_nat (length s)) with 0 by lia.
  replace (Z.max (Z.of_nat (length (before c s))) 0 `min` Z.of_nat (length s))
    with (Z.of_nat (length (before c s))) by lia.
  replace (Z.to_nat (0 `min` Z.of_nat (length (before c s)))) with 0%nat by lia.
  replace (Z.to_nat (0 `max` Z.of_nat (length (before c s)) - 0 `min` Z.of_nat (length (before c s))))
    with (length (before c s)) by lia.
  rewrite drop_0. apply take_before.
Qed.

(** Trimming and upper case. *)

Lemma trimStart_suffix s : ∃ ws, s = ws ++ Str.trimStart s.
Proof.
  induction s as [|x s [ws IH]]; simpl; [by exists []|].
  destruct (Str.is_space x).
  - exists (x :: ws). simpl. by f_equal.
  - by exists [].
Qed.

Lemma contains_app_r needle pre s : contains needle s → contains needle (pre ++ s).
Proof. intros (p & q & ->). exists (pre ++ p), q. by rewrite <- app_assoc. Qed.

Lemma contains_app_l needle s post : contains needle s → contains needle (s ++ post).
Proof. intros (p & q & ->). exists p, (q ++ post). by rewrite <- !app_assoc. Qed.

Lemma contains_trimStart a needle s :
  Str.is_space a = false →
  contains (a :: needle) s → contains (a :: needle) (Str.trimStart s).
Proof.
  intros Ha (pre & post & ->). induction pre as [|x pre IH]; simpl.
  - rewrite Ha. by exists [], post.
  - destruct (Str.is_space x); [done|]. by exists (x :: pre), post.
Qed.

Lemma contains_rev needle s : contains needle s → contains (rev needle) (rev s).
Proof.
  intros (pre & post & ->). exists (rev post), (rev pre).
  by rewrite !rev_app_distr, <- app_assoc.
Qed.

Lemma contains_trimEnd a needle s :
  Str.is_space a = false → rev needle = a :: rev (removelast needle) →
  contains needle s → contains needle (Str.trimEnd s).
Proof.
  intros Ha Hrev Hc. unfold Str.trimEnd.
  rewrite <- (rev_involutive needle). apply contains_rev.
  rewrite Hrev. apply contains_trimStart; [done|].
  rewrite <- Hrev. by apply contains_rev.
Qed.

Lemma contains_0X_trim s :
  contains (lit "0X") s → contains (lit "0X") (Str.trim s).
Proof.
  intros Hc. unfold Str.trim.
  apply (contains_trimEnd "X"%char); [done..|].
  by apply (contains_trimStart "0"%char (lit "X")).
Qed.

Lemma elem_of_trimStart c s : c ∈ Str.trimStart s → c ∈ s.
Proof.
  destruct (trimStart_suffix s) as [ws Hs]. rewrite Hs at 2.
  rewrite elem_of_app. by right.
Qed.

Lemma elem_of_trim c s : c ∈ Str.trim s → c ∈ s.
Proof.
  unfold Str.trim, Str.trimEnd. intros Hin.
  apply elem_of_trimStart. apply list_elem_of_In, in_rev, list_elem_of_In.
  by apply elem_of_trimStart, list_elem_of_In, in_rev, list_elem_of_In.
Qed.

Lemma upper_char_not_x c : Str.upper_char c ≠ "x"%char.
Proof. destruct c as [[] [] [] [] [] [] [] []]; by vm_compute. Qed.

Lemma toUpperCase_not_x s : "x"%char ∉ Str.toUpperCase s.
Proof.
  unfold Str.toUpperCase. rewrite list_elem_of_In, in_map_iff.
  intros (c & Hc & _). by apply upper_char_not_x in Hc.
Qed.

Lemma toUpperCase_app s1 s2 :
  Str.toUpperCase (s1 ++ s2) = Str.toUpperCase s1 ++ Str.toUpperCase s2.
Proof. apply map_app. Qed.

(** A hex marker of either case shows in the trimmed upper-case form. *)
Lemma hex_marker_upper s x :
  x = "x"%char ∨ x = "X"%char →
  contains ["0"%char; x] s →
  contains (lit "0X") (Str.trim (Str.toUpperCase s)).
Proof.
  intros Hx (pre & post & ->). apply contains_0X_trim.
  exists (Str.toUpperCase pre), (Str.toUpperCase post).
  rewrite !toUpperCase_app. by destruct Hx as [-> | ->].
Qed.

End Strings.

(** ** Numeric literal parser *)

Section NumericParser.

Import TableSpec.
Implicit Types s str pre post : jsstring.

Lemma after_sign_suffix s : ∃ skipped, s = skipped ++ after_sign s.
Proof.
  destruct (trimStart_suffix s) as [ws Hs]. unfold after_sign. cbv zeta.
  destruct (Str.trimStart s) as [|c t]; [by exists ws|].
  case_decide; [|by exists ws].
  exists (ws ++ [c]). by rewrite <- app_assoc.
Qed.

Lemma startsWith_contains s needle :
  Str.startsWith (after_sign s) needle = true → contains needle s.
Proof.
  intros [post Hp]%startsWith_spec.
  destruct (after_sign_suffix s) as [skipped Hs].
  exists skipped, post. by rewrite <- Hp.
Qed.

(** Without a hex marker, a missing radix means decimal. *)
Lemma parseInt_decimal s :
  ¬ contains (lit "0x") s → ¬ contains (lit "0X") s →
  parseInt s None = parseInt s (Some 10).
Proof.
  intros Hx HX. unfold parseInt. cbv zeta. change (JS.ToInt32 10) with 10.
  fold (after_sign s).
  assert (Hhex : Str.startsWith (after_sign s) (lit "0x")
                 || Str.startsWith (after_sign s) (lit "0X") = false).
  { apply orb_false_intro; apply not_true_is_false;
      intros H%startsWith_contains; tauto. }
  rewrite Hhex. reflexivity.
Qed.

Lemma contains_nonempty needle s : needle ≠ [] → contains needle s → s ≠ [].
Proof.
  intros Hn (pre & post & ->) Heq.
  apply app_eq_nil in Heq as [_ Heq]. by apply app_eq_nil in Heq as [? _].
Qed.

(** An upper-case string holds no lower-case hex marker. *)
Lemma upper_no_0x str s :
  (∀ c, c ∈ s → c ∈ Str.toUpperCase str) → ¬ contains (lit "0x") s.
Proof.
  intros Hs (pre & post & ->).
  apply (toUpperCase_not_x str), Hs.
  rewrite !elem_of_app. right; left. by apply elem_of_cons; right; left.
Qed.

(** The branch of a unit suffix: the text before the first [unit] is parsed
    in decimal. *)
Lemma unit_prefix_decimal str (unit : ascii) pre post :
  let up := Str.trim (Str.toUpperCase str) in
  ¬ contains (lit "0X") up →
  up = pre ++ [unit] ++ post → unit ∉ pre →
  (0 <=? Str.indexOf up [unit]) = true ∧
  parseInt (Str.substring up 0 (Str.indexOf up [unit])) None =
  parseInt pre (Some 10).
Proof.
  intros up H0X Hup Hpre.
  assert (Hin : unit ∈ up).
  { rewrite Hup, !elem_of_app. right; left. by apply list_elem_of_singleton. }
  split; [by apply indexOf_contains, contains_char|].
  rewrite substring_indexOf_char by done.
  rewrite Hup at 1. rewrite before_split by done.
  apply parseInt_decimal.
  - apply (upper_no_0x str). intros c Hc. apply elem_of_trim. fold up.
    rewrite Hup, elem_of_app. by left.
  - intros Hc. apply H0X. rewrite Hup. by apply contains_app_l.
Qed.

End NumericParser.

(** C8: with [up] the token in upper case and trimmed, [fancyParseInt]
    returns 0 when [up] is empty; the original string parsed in base 16 when
    [up] contains 0X; otherwise 1024 times the number before the first K, or
    else 1024 * 1024 times the number before the first M; otherwise the
    string parsed as a decimal number. It maps 0x9000 to 36864, 16K to
    16384, 4M to 4194304, the empty string to 0 and 1000 to 1000. *)
Theorem fancyParseInt_contract (str : jsstring) :
  let up := Str.trim (Str.toUpperCase str) in
  let hex := TableSpec.contains (lit "0X") up in
  let kilo := TableSpec.contains (lit "K") up in
  let mega := TableSpec.contains (lit "M") up in
  (up = lit "" → fancyParseInt str = Num 0) ∧
  (hex → fancyParseInt str = parseInt str (Some 16)) ∧
  (¬ hex → ∀ pre post, up = pre ++ lit "K" ++ post → "K"%char ∉ pre →
     fancyParseInt str = Number.mul (Num 1024) (parseInt pre (Some 10))) ∧
  (¬ hex → ¬ kilo → ∀ pre post, up = pre ++ lit "M" ++ post → "M"%char ∉ pre →
     fancyParseInt str =
     Number.mul (Num (1024 * 1024)) (parseInt pre (Some 10))) ∧
  (up ≠ lit "" → ¬ hex → ¬ kilo → ¬ mega →
     fancyParseInt str = parseInt str (Some 10)) ∧
  fancyParseInt (lit "0x9000") = Num 36864 ∧
  fancyParseInt (lit "16K") = Num 16384 ∧
  fancyParseInt (lit "4M") = Num 4194304 ∧
  fancyParseInt (lit "") = Num 0 ∧
  fancyParseInt (lit "1000") = Num 1000.
Proof.
  intros up hex kilo mega.
  assert (Hfancy : fancyParseInt str =
    if decide (up = lit "") then Num 0
    else if 0 <=? Str.indexOf up (lit "0X") then parseInt str (Some 16)
    else if 0 <=? Str.indexOf up (lit "K") then
      Number.mul (Num 1024)
        (parseInt (Str.substring up 0 (Str.indexOf up (lit "K"))) None)
    else if 0 <=? Str.indexOf up (lit "M") then
      Number.mul (Num (1024 * 1024))
        (parseInt (Str.substring up 0 (Str.indexOf up (lit "M"))) None)
    else parseInt str None) by reflexivity.
  change (lit "K") with ["K"%char] in Hfancy.
  change (lit "M") with ["M"%char] in Hfancy.
  split; [|split; [|split; [|split; [|split; [|by vm_compute]]]]].
  - intros Hup. by rewrite Hfancy, decide_True.
  - intros Hhex. rewrite Hfancy.
    rewrite decide_False by (by apply (contains_nonempty (lit "0X")); [|exact Hhex]).
    by rewrite (proj2 (indexOf_contains _ _) Hhex).
  - intros Hhex pre post Hup Hpre. rewrite Hfancy.
    rewrite decide_False by (rewrite Hup; by destruct pre).
    rewrite (proj2 (indexOf_not_contains _ _) Hhex).
    destruct (unit_prefix_decimal str "K"%char pre post Hhex Hup Hpre) as [H1 H2].
    fold up in H1, H2. by rewrite H1, H2.
  - intros Hhex Hkilo pre post Hup Hpre. rewrite Hfancy.
    rewrite decide_False by (rewrite Hup; by destruct pre).
    rewrite (proj2 (indexOf_not_contains _ _) Hhex).
    rewrite (proj2 (indexOf_not_contains _ ["K"%char]) Hkilo).
    destruct (unit_prefix_decimal str "M"%char pre post Hhex Hup Hpre) as [H1 H2].
    fold up in H1, H2. by rewrite H1, H2.
  - intros Hup Hhex Hkilo Hmega. rewrite Hfancy, decide_False by done.
    rewrite (proj2 (indexOf_not_contains _ _) Hhex).
    rewrite (proj2 (indexOf_not_contains _ ["K"%char]) Hkilo).
    rewrite (proj2 (indexOf_not_contains _ ["M"%char]) Hmega).
    apply parseInt_decimal; intros Hc; apply Hhex.
    + by apply (hex_marker_upper str "x"%char); [left|].
    + by apply (hex_marker_upper str "X"%char); [right|].
Qed.

(** C10: a token whose trimmed upper-case form contains 0X and also K or M
    is parsed as a hexadecimal number from the original string, without any
    multiplier: the test for 0X comes first, and nothing is rejected. *)
Theorem fancyParseInt_hex_first (str : jsstring) :
  let up := Str.trim (Str.toUpperCase str) in
  TableSpec.contains (lit "0X") up →
  TableSpec.contains (lit "K") up ∨ TableSpec.contains (lit "M") up →
  fancyParseInt str = parseInt str (Some 16).
Proof.
  intros up Hhex _. unfold fancyParseInt. fold up. cbv zeta.
  rewrite decide_False by (by apply (contains_nonempty (lit "0X")); [|exact Hhex]).
  by rewrite (proj2 (indexOf_contains _ _) Hhex).
Qed.

Lemma fancyParseInt_hex_first_witness :
  fancyParseInt (lit "0x1K") = Num 1 ∧ fancyParseInt (lit "0x1M") = Num 1.
Proof.
  split.
  - rewrite (fancyParseInt_hex_first (lit "0x1K")); [by vm_compute|..].
    + by exists (lit ""), (lit "1K").
    + left. by exists (lit "0X1"), (lit "").
  - rewrite (fancyParseInt_hex_first (lit "0x1M")); [by vm_compute|..].
    + by exists (lit ""), (lit "1M").
    + right. by exists (lit "0X1"), (lit "").
Defined.

(** ** Partition table scan *)

Section PartitionScan.

Import TableSpec.
Implicit Types line text : jsstring.
Implicit Types row : list jsstring.

(** Cutting the comment off with [indexOf] and [substring]. *)
Lemma strip_comment line :
  (if 0 <=? Str.indexOf line (lit "#")
   then Str.substring line 0 (Str.indexOf line (lit "#"))
   else line) = before "#"%char line.
Proof.
  change (lit "#") with ["#"%char].
  destruct (decide ("#"%char ∈ line)) as [Hin|Hnin].
  - rewrite (proj2 (indexOf_contains _ _)) by (by apply contains_char).
    by apply substring_indexOf_char.
  - rewrite (proj2 (indexOf_not_contains _ _)) by (by rewrite contains_char).
    symmetry. by apply before_absent.
Qed.

Lemma scan_line_fields st line :
  scan_line st line =
  let row := Str.split (before "#"%char line) ","%char in
  if decide (5 ≤ length row)%nat then scan_entry st row else st.
Proof.
  unfold scan_line. cbv zeta. rewrite strip_comment.
  destruct (Z.ltb_spec 4 (Z.of_nat (length (Str.split (before "#"%char line) ","%char))));
    case_decide; (done || lia).
Qed.

(** The loop over the lines is a fold of [scan_entry] over the rows. *)
Lemma scan_lines_rows lines st :
  fold_left scan_line lines st =
  fold_left scan_entry
    (filter (λ fields, (5 <= length fields)%nat)
       (map (λ line, Str.split (before "#"%char line) ","%char) lines)) st.
Proof.
  revert st. induction lines as [|line lines IH]; intros st; [done|].
  cbn [fold_left map]. rewrite IH, scan_line_fields. cbv zeta.
  rewrite filter_cons. by case_decide.
Qed.

Lemma scan_entry_lastend st row :
  lastend (scan_entry st row) =
  let offset := fancyParseInt (nth 3 row []) in
  let size := fancyParseInt (nth 4 row []) in
  let offset := if Number.strict_eq offset 0 then lastend st else offset in
  Number.add offset size.
Proof. unfold scan_entry. cbv zeta. by case_decide. Qed.

(** What the fold leaves in [fsStart] and [fsEnd]: the range of the last
    FAT entry, or their former values without one. *)
Lemma scan_entries_last rows st :
  let final := fold_left scan_entry rows st in
  let found := last (filter (λ e, e_fat e = true) (resolve (lastend st) rows)) in
  fsStart final = from_option e_offset (fsStart st) found ∧
  fsEnd final =
    from_option (λ e, Number.add (e_offset e) (e_size e)) (fsEnd st) found.
Proof.
  revert st. induction rows as [|row rows IH]; intros st; [done|].
  cbn [fold_left resolve]. cbv zeta.
  specialize (IH (scan_entry st row)). cbv zeta in IH.
  rewrite scan_entry_lastend in IH. cbv zeta in IH.
  destruct IH as [IHs IHe]. rewrite IHs, IHe. clear IHs IHe.
  rewrite filter_cons. cbn [e_fat].
  set (rest := last (filter _ (resolve _ rows))).
  unfold scan_entry. cbv zeta. fold (is_fat row).
  destruct (decide (is_fat row)) as [Hfat|Hfat].
  - rewrite bool_decide_eq_true_2 by done. rewrite decide_True by done.
    rewrite last_cons. fold rest. by destruct rest.
  - rewrite bool_decide_eq_false_2 by done. rewrite decide_False by done.
    fold rest. by destruct rest.
Qed.

Lemma resolve_fat cursor rows :
  map e_fat (resolve cursor rows) = map (λ row, bool_decide (is_fat row)) rows.
Proof.
  revert cursor. induction rows as [|row rows IH]; intros cursor; [done|].
  cbn [resolve map]. cbv zeta. cbn [e_fat]. by rewrite IH.
Qed.

Lemma filter_fat_nil (es : list Entry) :
  filter (λ e, e_fat e = true) es = [] ↔ Forall (λ b, b = false) (map e_fat es).
Proof.
  induction es as [|e es IH]; [by split; [constructor|]|].
  rewrite filter_cons. cbn [map]. rewrite Forall_cons, <- IH.
  case_decide as He.
  - split; [done|]. intros [He' _]. congruence.
  - split; [|by intros [_ ?]]. intros Hnil. split; [|done]. by destruct (e_fat e).
Qed.

Lemma fat_rows_entries text :
  (∃ row, row ∈ rows text ∧ is_fat row) ↔ is_Some (last_fat text).
Proof.
  unfold last_fat, entries. rewrite last_is_Some.
  rewrite filter_fat_nil, resolve_fat, Forall_forall.
  split.
  - intros (row & Hin & Hfat) Hall.
    specialize (Hall (bool_decide (is_fat row))).
    rewrite bool_decide_eq_true_2 in Hall by done.
    assert (true = false); [|done]. apply Hall.
    apply list_elem_of_In, in_map_iff. exists row.
    split; [by apply bool_decide_eq_true_2|by apply list_elem_of_In].
  - intros Hex. destruct (decide (Exists is_fat (rows text))) as [Hyes|Hno].
    + apply Exists_exists in Hyes as (row & Hin & Hfat). by exists row.
    + exfalso. apply Hex. intros b Hb.
      apply list_elem_of_In, in_map_iff in Hb as (row & <- & Hin).
      apply bool_decide_eq_false_2. intros Hfat. apply Hno.
      apply Exists_exists. exists row. by rewrite list_elem_of_In.
Qed.

Lemma scan_result text :
  let st := doOperation_scan text in
  fsStart st = from_option e_offset (Num 0) (last_fat text) ∧
  fsEnd st =
    from_option (λ e, Number.add (e_offset e) (e_size e)) (Num 0) (last_fat text).
Proof.
  unfold doOperation_scan. cbv zeta. rewrite scan_lines_rows.
  apply (scan_entries_last (rows text)
           {| lastend := Num (0x8000 + 0xC00); fsStart := Num 0; fsEnd := Num 0 |}).
Qed.

End PartitionScan.

(** C6, amended: when the table has a row of at least five fields whose
    subtype is FAT, the entries resolved by the running cursor (seeded at
    0x8000 + 0xC00, replacing an offset of 0 and advanced to offset + size
    after every row) have a last FAT entry; when its offset and its size are
    numbers with a start and an end different from 0, the scan returns that
    start and, as the end, start + size; when its start or its end is NaN or
    0, the scan ends with the not-found error. *)
Theorem locate_last_fat (text : jsstring) :
  (∃ row, row ∈ TableSpec.rows text ∧ TableSpec.is_fat row) →
  ∃ e, TableSpec.last_fat text = Some e ∧
    (∀ start size,
       TableSpec.e_offset e = Num start → TableSpec.e_size e = Num size →
       start ≠ 0 → start + size ≠ 0 →
       doOperation_locate text = FatRange start (start + size)) ∧
    (Number.falsy (TableSpec.e_offset e) = true ∨
     Number.falsy (Number.add (TableSpec.e_offset e) (TableSpec.e_size e)) = true →
     doOperation_locate text = FatNotFound).
Proof.
  intros [e He]%fat_rows_entries. exists e. split; [done|].
  destruct (scan_result text) as [Hs He']. cbv zeta in Hs, He'.
  unfold doOperation_locate. cbv zeta.
  rewrite Hs, He', He. cbn [from_option]. split.
  - intros start size Hoff Hsize Hstart Hend.
    rewrite Hoff, Hsize. cbn [Number.add Number.falsy].
    by rewrite (proj2 (Z.eqb_neq _ _) Hstart), (proj2 (Z.eqb_neq _ _) Hend).
  - intros [-> | ->]; [done|]. by rewrite orb_true_r.
Qed.

Lemma locate_last_fat_witness :
  doOperation_locate table_with_ffat = FatRange 0x290000 (0x290000 + 0x160000).
Proof.
  destruct (locate_last_fat table_with_ffat) as (e & He & Hrange & _).
  - exists (map lit ["ffat"; "     data"; " fat"; "     0x290000"; "0x160000"; ""])%string.
    split; [|by vm_compute].
    apply (list_elem_of_lookup_2 _ 4). by vm_compute.
  - apply Hrange; [| |done..].
    + vm_compute in He. by injection He as <-.
    + vm_compute in He. by injection He as <-.
Defined.

(** A FAT row with an unparsable offset: the scan reports that no FAT
    partition was found. *)
Lemma locate_last_fat_counterexample :
  (∃ row, row ∈ TableSpec.rows table_bad_offset ∧ TableSpec.is_fat row) ∧
  TableSpec.last_fat table_bad_offset =
    Some {| TableSpec.e_fat := true; TableSpec.e_offset := NaN;
            TableSpec.e_size := Num 1048576 |} ∧
  doOperation_locate table_bad_offset = FatNotFound.
Proof.
  split; [|by vm_compute].
  exists (map lit ["ffat"; " data"; " fat"; " Ox290000"; " 1M"; ""])%string.
  split; [|by vm_compute].
  apply (list_elem_of_lookup_2 _ 1). by vm_compute.
Qed.

(** C9: when no row of at least five fields has the subtype FAT, the scan
    ends with the not-found error; no default range is returned. *)
Theorem locate_not_found (text : jsstring) :
  (∀ row, row ∈ TableSpec.rows text → ¬ TableSpec.is_fat row) →
  doOperation_locate text = FatNotFound.
Proof.
  intros Hnone.
  assert (Hlast : TableSpec.last_fat text = None).
  { destruct (TableSpec.last_fat text) as [e|] eqn:He; [|done].
    assert (Hsome : is_Some (TableSpec.last_fat text)) by (by rewrite He).
    apply fat_rows_entries in Hsome as (row & Hin & Hfat).
    by destruct (Hnone row Hin). }
  destruct (scan_result text) as [Hs _]. cbv zeta in Hs.
  unfold doOperation_locate. cbv zeta. by rewrite Hs, Hlast.
Qed.

Lemma locate_not_found_witness :
  doOperation_locate table_without_fat = FatNotFound.
Proof.
  apply locate_not_found. intros row Hin Hfat.
  apply list_elem_of_In in Hin. vm_compute in Hin.
  repeat (destruct Hin as [<-|Hin]; [by vm_compute in Hfat|]).
  exact Hin.
Defined.

(** * Further properties *)

(** ** Layout calculator *)

Section LayoutRounding.

Variables sectorSize : Z.
Hypothesis sector_pos : 0 < sectorSize.

Lemma ceil_div_lt a : Math.ceil_div a sectorSize * sectorSize < a + sectorSize.
Proof.
  unfold Math.ceil_div.
  pose proof (Z.mod_pos_bound (- a) sectorSize sector_pos).
  pose proof (Z.div_mod (- a) sectorSize). lia.
Qed.

Lemma ceil_div_divide a : (sectorSize | Math.ceil_div a sectorSize * sectorSize).
Proof. apply Z.divide_factor_r. Qed.

End LayoutRounding.

(** X1: The config and the state sizes are the least multiples of the sector size
    that hold 36 bytes and 64 bytes plus four per sector; a sector of at
    least 36 bytes makes the config size one sector. *)
Theorem layout_rounding (partitionSize sectorSize : Z) :
  0 < sectorSize →
  let L := calculateWLLayout partitionSize sectorSize in
  let stateRawSize := 64 + Math.floor_div partitionSize sectorSize * 4 in
  (sectorSize | cfgSize L) ∧ 36 <= cfgSize L < 36 + sectorSize ∧
  (sectorSize | stateSize L) ∧ stateRawSize <= stateSize L < stateRawSize + sectorSize ∧
  (36 <= sectorSize → cfgSize L = sectorSize).
Proof.
  intros Hs L raw.
  pose proof (ceil_div_ge sectorSize Hs 36) as H1.
  pose proof (ceil_div_lt sectorSize Hs 36) as H2.
  pose proof (ceil_div_ge sectorSize Hs raw) as H3.
  pose proof (ceil_div_lt sectorSize Hs raw) as H4.
  split; [apply ceil_div_divide|]. split; [by split|].
  split; [apply ceil_div_divide|]. split; [by split|].
  intros Hbig. change (cfgSize L) with (Math.ceil_div 36 sectorSize * sectorSize).
  clear H3 H4. set (m := Math.ceil_div 36 sectorSize) in *.
  assert (0 < m) by nia. assert (m < 2) by nia. nia.
Qed.

Lemma layout_rounding_witness :
  let L := calculateWLLayout 0x170000 default_sectorSize in
  cfgSize L = default_sectorSize ∧ (default_sectorSize | stateSize L).
Proof.
  pose proof (layout_rounding 0x170000 default_sectorSize) as H. cbv zeta in H.
  destruct H as (_ & _ & Hst & _ & Hcfg).
  - by vm_compute.
  - split; [apply Hcfg; by vm_compute|exact Hst].
Defined.

(** X2: On a partition made of whole sectors every address of the layout is on
    a sector boundary and the overhead is exact: the data region is the
    partition less the config sector, the two state regions and the dummy
    sector. *)
Theorem layout_aligned (partitionSize sectorSize : Z) :
  0 < sectorSize → (sectorSize | partitionSize) →
  let L := calculateWLLayout partitionSize sectorSize in
  flashSize L = partitionSize - cfgSize L - 2 * stateSize L - sectorSize ∧
  (sectorSize | addrCfg L) ∧ (sectorSize | addrState1 L) ∧
  (sectorSize | addrState2 L) ∧ (sectorSize | flashSize L).
Proof.
  intros Hs [k Hk] L.
  destruct (ceil_div_divide sectorSize 36) as [c Hc].
  destruct (ceil_div_divide sectorSize
              (64 + Math.floor_div partitionSize sectorSize * 4)) as [t Ht].
  assert (Hcfg : cfgSize L = c * sectorSize) by exact Hc.
  assert (Hst : stateSize L = t * sectorSize) by exact Ht.
  assert (Ha1 : addrState1 L = (k - c - 2 * t) * sectorSize).
  { change (addrState1 L) with (partitionSize - cfgSize L - stateSize L * 2). lia. }
  assert (Hflash : flashSize L = (k - c - 2 * t - 1) * sectorSize).
  { pose proof (flashSize_eq partitionSize sectorSize) as Hf. fold L in Hf.
    rewrite Hf, Ha1. unfold Math.floor_div. by rewrite Z.div_mul by lia. }
  split; [lia|].
  split; [exists (k - c); change (addrCfg L) with (partitionSize - cfgSize L); lia|].
  split; [by eexists|].
  split; [|by eexists].
  exists (k - c - t).
  change (addrState2 L) with (partitionSize - cfgSize L - stateSize L). lia.
Qed.

Lemma layout_aligned_witness :
  let L := calculateWLLayout 0x160000 default_sectorSize in
  flashSize L = 0x160000 - cfgSize L - 2 * stateSize L - default_sectorSize.
Proof.
  pose proof (layout_aligned 0x160000 default_sectorSize) as H. cbv zeta in H.
  destruct H as (Hflash & _).
  - by vm_compute.
  - exists 352. by vm_compute.
  - exact Hflash.
Defined.

(** X3: [maxPos] counts the data sectors and the dummy sector, and these sectors
    end before the first state region. *)
Theorem layout_maxPos (partitionSize sectorSize : Z) :
  0 < sectorSize →
  let L := calculateWLLayout partitionSize sectorSize in
  maxPos L * sectorSize = flashSize L + sectorSize ∧
  maxPos L * sectorSize <= addrState1 L ∧
  addrState1 L < (maxPos L + 1) * sectorSize.
Proof.
  intros Hs L.
  pose proof (maxPos_eq partitionSize sectorSize Hs) as Hmax.
  pose proof (flashSize_eq partitionSize sectorSize) as Hflash.
  fold L in Hmax, Hflash. rewrite Hmax, Hflash. unfold Math.floor_div.
  pose proof (Z.div_mod (addrState1 L) sectorSize).
  pose proof (Z.mod_pos_bound (addrState1 L) sectorSize Hs).
  lia.
Qed.

Lemma layout_maxPos_witness :
  let L := calculateWLLayout 0x170000 default_sectorSize in
  maxPos L * default_sectorSize = flashSize L + default_sectorSize.
Proof.
  pose proof (layout_maxPos 0x170000 default_sectorSize) as H. cbv zeta in H.
  destruct H as (Hmax & _); [by vm_compute|exact Hmax].
Defined.

(** ** Checksum engine *)

Section ChecksumResidue.

Import CrcSpec.

Lemma xor_low_byte a : 0 <= a → Z.lxor a (a mod 256) = 256 * (a / 256).
Proof.
  intros Ha. apply Z.bits_inj'. intros n Hn.
  change 256 with (2 ^ 8). rewrite Z.lxor_spec, Z.testbit_mod_pow2 by lia.
  rewrite Z.mul_comm, <- Z.shiftl_mul_pow2, <- Z.shiftr_div_pow2 by lia.
  rewrite Z.shiftl_spec by lia.
  destruct (Z.ltb_spec n 8).
  - rewrite (Z.testbit_neg_r _ (n - 8)) by lia. simpl. apply xorb_nilpotent.
  - rewrite Z.shiftr_spec by lia. replace (n - 8 + 8) with n by lia.
    simpl. apply xorb_false_r.
Qed.

Lemma round_double q : round (2 * q) = q.
Proof.
  unfold round. rewrite Z.odd_mul. simpl. rewrite round_shift.
  by rewrite Z.mul_comm, Z.div_mul.
Qed.

Lemma rounds_shift n q : Nat.iter n round (2 ^ Z.of_nat n * q) = q.
Proof.
  revert q. induction n as [|n IH]; intros q.
  - simpl. by destruct q.
  - rewrite Nat2Z.inj_succ, Z.pow_succ_r by lia. rewrite Nat.iter_succ.
    replace (2 * 2 ^ Z.of_nat n * q) with (2 ^ Z.of_nat n * (2 * q)) by lia.
    by rewrite IH, round_double.
Qed.

(** Feeding an accumulator its own low byte shifts it down by one byte. *)
Lemma feed_low_byte a : 0 <= a → feed a (a mod 256) = a / 256.
Proof.
  intros Ha. unfold feed. rewrite xor_low_byte by done.
  apply (rounds_shift 8).
Qed.

Lemma feed_own_bytes c :
  is_u32 c → fold_left feed (RecordSpec.u32le c) c = 0.
Proof.
  intros Hc. unfold is_u32 in Hc. unfold RecordSpec.u32le.
  assert (E2 : c / 65536 = c / 256 / 256) by (by rewrite Z.div_div by lia).
  assert (E3 : c / 16777216 = c / 256 / 256 / 256) by (by rewrite !Z.div_div by lia).
  rewrite E2, E3, !fold_left_cons.
  assert (0 <= c / 256) by (apply Z.div_pos; lia).
  assert (0 <= c / 256 / 256) by (apply Z.div_pos; lia).
  assert (0 <= c / 256 / 256 / 256) by (apply Z.div_pos; lia).
  rewrite !feed_low_byte by lia. simpl.
  rewrite !Z.div_div by lia. apply Z.div_small. lia.
Qed.

Lemma crc_residue (fields : Buffer) :
  Forall is_u8 fields →
  wlCrc32 (fields ++ RecordSpec.u32le (wlCrc32 fields)) = 0.
Proof.
  intros Hf. pose proof (wlCrc32_u32 fields) as Hc.
  rewrite (wlCrc32_refines (_ ++ _)) by (apply Forall_app; split; [done|apply u32le_bytes]).
  unfold crc32. rewrite fold_left_app. fold (crc32 fields).
  rewrite <- (wlCrc32_refines fields) by done.
  by apply feed_own_bytes.
Qed.

End ChecksumResidue.

(** X4: The checksum of a buffer followed by its own checksum, low byte first,
    is 0: a record that ends with its checksum checks itself. *)
Theorem wlCrc32_residue (fields : Buffer) :
  Forall is_u8 fields →
  wlCrc32 (fields ++ RecordSpec.u32le (wlCrc32 fields)) = 0.
Proof. apply crc_residue. Qed.

Lemma wlCrc32_residue_witness :
  wlCrc32 ([1; 2; 3] ++ RecordSpec.u32le (wlCrc32 [1; 2; 3])) = 0.
Proof.
  apply (wlCrc32_residue [1; 2; 3]).
  repeat constructor; unfold is_u8; lia.
Defined.

(** X5: The checksum is an unsigned 32-bit number, and it can be continued:
    without a final complement, the checksum of [a ++ b] is the loop run
    over [b] from the checksum of [a]. *)
Theorem wlCrc32_chain (a b : Buffer) :
  Forall is_u8 a → Forall is_u8 b →
  is_u32 (wlCrc32 (a ++ b)) ∧
  wlCrc32 (a ++ b) = fold_left CrcSpec.feed b (wlCrc32 a).
Proof.
  intros Ha Hb. split; [apply wlCrc32_u32|].
  rewrite !wlCrc32_refines by (done || by apply Forall_app).
  unfold CrcSpec.crc32. apply fold_left_app.
Qed.

Lemma wlCrc32_chain_witness :
  wlCrc32 ([49; 50; 51; 52] ++ [53; 54; 55; 56; 57]) =
  fold_left CrcSpec.feed [53; 54; 55; 56; 57] (wlCrc32 [49; 50; 51; 52]).
Proof.
  apply (wlCrc32_chain [49; 50; 51; 52] [53; 54; 55; 56; 57]);
    repeat constructor; unfold is_u8; lia.
Defined.

(** ** Image assembler *)

Section AssemblerMore.

Import RecordSpec.

Lemma config_fields_bytes P s : Forall is_u8 (config_fields P s).
Proof. unfold config_fields. repeat (apply Forall_app; split); apply u32le_bytes. Qed.

Lemma state_fields_bytes P s : Forall is_u8 (state_fields P s).
Proof.
  unfold state_fields. cbv zeta.
  repeat (apply Forall_app; split); try apply u32le_bytes.
  apply Forall_replicate. unfold is_u8. lia.
Qed.

(** Two layers of bytes written at the same place over lists that agree at
    an index agree there. *)
Lemma lookup_inserts_congr {A} (k l1 l2 : list A) (a j : nat) :
  length l1 = length l2 → l1 !! j = l2 !! j →
  list_inserts a k l1 !! j = list_inserts a k l2 !! j.
Proof.
  intros Hlen Hj.
  destruct (decide (a ≤ j < a + length k)%nat) as [Hin|Hout].
  - destruct (decide (j < length l1)%nat) as [Hlt|Hge].
    + rewrite !list_lookup_inserts by lia. done.
    + rewrite !(proj2 (lookup_ge_None _ _)); [done|rewrite length_inserts; lia..].
  - by rewrite !lookup_inserts_outside.
Qed.

End AssemblerMore.

(** X6: Records that check themselves: in every assembled image the checksum of
    the whole 36-byte config record is 0, and so is the checksum of each
    64-byte state header. *)
Theorem assembler_records_residue
    (fatImage : Buffer) (partitionSize sectorSize : Z) (image : Buffer) :
  0 < sectorSize →
  wrapWithWearLeveling fatImage partitionSize sectorSize = Ok image →
  let L := calculateWLLayout partitionSize sectorSize in
  wlCrc32 (Buf.subarray image (addrCfg L) (addrCfg L + 36)) = 0 ∧
  wlCrc32 (Buf.subarray image (addrState1 L) (addrState1 L + 64)) = 0 ∧
  wlCrc32 (Buf.subarray image (addrState2 L) (addrState2 L + 64)) = 0.
Proof.
  intros Hs Hok L.
  apply wrap_inv in Hok as (Hlen & HP & ->); [|done].
  unfold L.
  rewrite image_config, image_state1, image_state2 by done.
  unfold RecordSpec.config_record, RecordSpec.state_record. cbv zeta.
  split; [apply crc_residue, config_fields_bytes|].
  split; apply crc_residue, state_fields_bytes.
Qed.

Lemma assembler_records_residue_witness :
  let image := assembled (replicate 640 7) 1024 64 in
  wlCrc32 (Buf.subarray image 960 (960 + 36)) = 0 ∧
  wlCrc32 (Buf.subarray image 704 (704 + 64)) = 0.
Proof.
  assert (Hok : wrapWithWearLeveling (replicate 640 7) 1024 64 =
                Ok (assembled (replicate 640 7) 1024 64))
    by (vm_compute; reflexivity).
  pose proof (assembler_records_residue (replicate 640 7) 1024 64 _ ltac:(lia) Hok)
    as (Hc & Hs1 & _).
  split; [exact Hc|exact Hs1].
Defined.

(** X7: A partition size outside the unsigned 32-bit range makes the assembler
    throw a range error once the length check has passed: no image with a
    wrapped or truncated size field is ever produced. *)
Theorem assembler_range_error (fatImage : Buffer) (partitionSize sectorSize : Z) :
  0 < sectorSize →
  Buf.length fatImage = flashSize (calculateWLLayout partitionSize sectorSize) →
  ¬ is_u32 partitionSize →
  wrapWithWearLeveling fatImage partitionSize sectorSize = Throw RangeError.
Proof. intros Hs Hlen HP. by apply wrap_range_error. Qed.

Lemma assembler_range_error_witness :
  wrapWithWearLeveling [1; 2; 3] (-24) 1 = Throw RangeError.
Proof.
  apply (assembler_range_error [1; 2; 3] (-24) 1).
  - lia.
  - by vm_compute.
  - unfold is_u32. lia.
Defined.

(** X8: The bytes outside the data window do not depend on the raw image: two
    raw images for the same partition give images that agree everywhere
    else. *)
Theorem assembler_metadata_independent
    (fat1 fat2 : Buffer) (partitionSize sectorSize : Z) (image1 image2 : Buffer) :
  0 < sectorSize →
  wrapWithWearLeveling fat1 partitionSize sectorSize = Ok image1 →
  wrapWithWearLeveling fat2 partitionSize sectorSize = Ok image2 →
  let L := calculateWLLayout partitionSize sectorSize in
  Buf.length image1 = Buf.length image2 ∧
  ∀ i, ¬ (sectorSize <= i < sectorSize + flashSize L) →
       Buf.get image1 i = Buf.get image2 i.
Proof.
  intros Hs Hok1 Hok2 L.
  apply wrap_inv in Hok1 as (Hlen1 & HP & ->); [|done].
  apply wrap_inv in Hok2 as (Hlen2 & _ & ->); [|done].
  split; [by rewrite !image_length|].
  intros i Hi. unfold Buf.get. destruct (i <? 0) eqn:Hneg; [done|].
  apply Z.ltb_ge in Hneg.
  unfold assembled. cbv zeta. fold L.
  unfold Buf.length in Hlen1, Hlen2. fold L in Hlen1, Hlen2.
  do 3 (apply lookup_inserts_congr; [by rewrite !length_inserts|]).
  rewrite !lookup_inserts_outside by lia. done.
Qed.

Lemma assembler_metadata_independent_witness :
  let image1 := assembled (replicate 640 7) 1024 64 in
  let image2 := assembled (replicate 640 9) 1024 64 in
  Buf.get image1 64 = Some 7 ∧ Buf.get image2 64 = Some 9 ∧
  Buf.get image1 1000 = Buf.get image2 1000.
Proof.
  assert (Hok1 : wrapWithWearLeveling (replicate 640 7) 1024 64 =
                 Ok (assembled (replicate 640 7) 1024 64))
    by (vm_compute; reflexivity).
  assert (Hok2 : wrapWithWearLeveling (replicate 640 9) 1024 64 =
                 Ok (assembled (replicate 640 9) 1024 64))
    by (vm_compute; reflexivity).
  pose proof (assembler_metadata_independent _ _ 1024 64 _ _ ltac:(lia) Hok1 Hok2)
    as (_ & Hsame).
  split; [by vm_compute|]. split; [by vm_compute|].
  apply Hsame. vm_compute. intros [_ H]. discriminate H.
Defined.

(** ** The data path of [doOperation] *)

(** X9: A raw image of the size asked of mkfatfs is always accepted, whatever
    FAT range the table gave (of a size that fits 32 bits): the image
    written has exactly the size of the partition, so flashing it at
    [fsStart] ends at [fsEnd], and it holds the raw image from the second
    sector on. A raw image of any other size writes nothing. *)
Theorem doOperation_image_fills_partition (fsStart fsEnd : Z) (rawData : Buffer) :
  is_u32 (fsEnd - fsStart) →
  (Buf.length rawData = doOperation_rawSize fsStart fsEnd →
   ∃ wlImage,
     doOperation_wrap fsStart fsEnd rawData = Some wlImage ∧
     fsStart + Buf.length wlImage = fsEnd ∧
     Buf.subarray wlImage default_sectorSize
       (default_sectorSize + doOperation_rawSize fsStart fsEnd) = rawData) ∧
  (Buf.length rawData ≠ doOperation_rawSize fsStart fsEnd →
   doOperation_wrap fsStart fsEnd rawData = None).
Proof.
  intros Hsize. unfold doOperation_wrap, doOperation_rawSize. cbv zeta.
  assert (Hs : 0 < default_sectorSize) by (by vm_compute).
  split.
  - intros Hlen. rewrite wrap_ok by done.
    eexists. split; [done|]. split.
    + rewrite image_length by done. lia.
    + by apply image_raw.
  - intros Hne. by rewrite wrap_mismatch.
Qed.

Lemma doOperation_image_fills_partition_witness :
  ∃ wlImage,
    doOperation_wrap 0x290000 (0x290000 + 20480) (replicate 4096 7) = Some wlImage ∧
    0x290000 + Buf.length wlImage = 0x290000 + 20480.
Proof.
  destruct (doOperation_image_fills_partition 0x290000 (0x290000 + 20480)
              (replicate 4096 7)) as [Hfit _].
  - unfold is_u32. lia.
  - destruct Hfit as (wlImage & Hw & Hend & _); [by vm_compute|].
    exists wlImage. by split.
Defined.

Section SmallPartitions.

(** One sector holds what fits it. *)
Lemma ceil_div_one sectorSize a :
  0 < a <= sectorSize → Math.ceil_div a sectorSize = 1.
Proof.
  intros Ha. assert (Hs : 0 < sectorSize) by lia.
  pose proof (ceil_div_ge sectorSize Hs a).
  pose proof (ceil_div_lt sectorSize Hs a). nia.
Qed.

(** With sectors of 4096 bytes and up to 1008 of them, the config and each
    state take one sector. *)
Lemma layout_one_sector_each partitionSize :
  0 <= partitionSize → partitionSize / 4096 <= 1008 →
  let L := calculateWLLayout partitionSize 4096 in
  cfgSize L = 4096 ∧ stateSize L = 4096 ∧
  flashSize L = (partitionSize / 4096 - 4) * 4096.
Proof.
  intros HP Hn L.
  assert (Hq : 0 <= partitionSize / 4096) by (apply Z.div_pos; lia).
  assert (Hcfg : cfgSize L = 4096).
  { change (cfgSize L) with (Math.ceil_div 36 4096 * 4096).
    rewrite ceil_div_one; lia. }
  assert (Hst : stateSize L = 4096).
  { change (stateSize L)
      with (Math.ceil_div (64 + Math.floor_div partitionSize 4096 * 4) 4096 * 4096).
    unfold Math.floor_div. rewrite ceil_div_one; lia. }
  split; [done|]. split; [done|].
  change (flashSize L)
    with ((Math.floor_div (partitionSize - cfgSize L - stateSize L * 2) 4096 - 1) * 4096).
  rewrite Hcfg, Hst. unfold Math.floor_div.
  replace (partitionSize - 4096 - 4096 * 2) with (partitionSize + (-3) * 4096) by lia.
  rewrite Z.div_add by lia. lia.
Qed.

End SmallPartitions.

(** X10: For a FAT range of up to 1008 sectors of 4096 bytes the wear-levelling
    layer costs four sectors and what is left of a last partial sector: the
    size asked of mkfatfs is the whole sectors of the range less four. A
    range of fewer than four sectors asks for a negative size, and then no
    raw image is accepted: nothing is written. *)
Theorem doOperation_small_partition (fsStart fsEnd : Z) (rawData : Buffer) :
  0 <= fsEnd - fsStart → (fsEnd - fsStart) / 4096 <= 1008 →
  doOperation_rawSize fsStart fsEnd = ((fsEnd - fsStart) / 4096 - 4) * 4096 ∧
  ((fsEnd - fsStart) / 4096 < 4 → doOperation_wrap fsStart fsEnd rawData = None).
Proof.
  intros Hsize Hn.
  destruct (layout_one_sector_each (fsEnd - fsStart) Hsize Hn) as (_ & _ & Hflash).
  split; [exact Hflash|].
  intros Hsmall. unfold doOperation_wrap. cbv zeta.
  rewrite wrap_mismatch; [done|].
  change (flashSize (calculateWLLayout (fsEnd - fsStart) default_sectorSize))
    with (flashSize (calculateWLLayout (fsEnd - fsStart) 4096)).
  rewrite Hflash. unfold Buf.length. lia.
Qed.

Lemma doOperation_small_partition_witness :
  doOperation_rawSize 0x290000 0x3F0000 = 0x15C000 ∧
  doOperation_wrap 0x290000 0x293000 [] = None.
Proof.
  split.
  - destruct (doOperation_small_partition 0x290000 0x3F0000 []) as [H _];
      [lia|by vm_compute|].
    rewrite H. by vm_compute.
  - destruct (doOperation_small_partition 0x290000 0x293000 []) as [_ H];
      [lia|by vm_compute|].
    apply H. by vm_compute.
Defined.

(** ** White space around a numeric literal *)

Section Padding.

Implicit Types s ws needle : jsstring.

Lemma upper_char_space c : Str.is_space c = true → Str.upper_char c = c.
Proof. destruct c as [[] [] [] [] [] [] [] []]; by vm_compute. Qed.

Lemma digit_value_space c : Str.is_space c = true → digit_value c = None.
Proof. destruct c as [[] [] [] [] [] [] [] []]; by vm_compute. Qed.

Lemma toUpperCase_space ws : all_space ws → Str.toUpperCase ws = ws.
Proof.
  induction 1 as [|c ws Hc _ IH]; [done|].
  unfold Str.toUpperCase in *. cbn [map]. by rewrite IH, upper_char_space.
Qed.

Lemma trimStart_space_app ws s : all_space ws → Str.trimStart (ws ++ s) = Str.trimStart s.
Proof. induction 1 as [|c ws Hc _ IH]; [done|]. simpl. by rewrite Hc. Qed.

Lemma trimStart_space ws : all_space ws → Str.trimStart ws = [].
Proof. intros H. rewrite <- (app_nil_r ws). by rewrite trimStart_space_app. Qed.

Lemma trimStart_app_space s ws :
  all_space ws →
  Str.trimStart (s ++ ws) =
  match Str.trimStart s with [] => [] | t => t ++ ws end.
Proof.
  intros Hws. induction s as [|c s IH]; simpl.
  - by apply trimStart_space.
  - by destruct (Str.is_space c).
Qed.

Lemma all_space_rev ws : all_space ws → all_space (rev ws).
Proof. unfold all_space. rewrite !Forall_forall. intros H c Hc. apply H.
  by apply list_elem_of_In, in_rev, list_elem_of_In. Qed.

Lemma trimEnd_app_space s ws : all_space ws → Str.trimEnd (s ++ ws) = Str.trimEnd s.
Proof.
  intros Hws. unfold Str.trimEnd.
  by rewrite rev_app_distr, trimStart_space_app by (by apply all_space_rev).
Qed.

Lemma trimEnd_nil : Str.trimEnd [] = [].
Proof. reflexivity. Qed.

(** Trimming forgets the white space on both sides. *)
Lemma trim_pad ws1 s ws2 :
  all_space ws1 → all_space ws2 → Str.trim (ws1 ++ s ++ ws2) = Str.trim s.
Proof.
  intros H1 H2. unfold Str.trim.
  rewrite trimStart_space_app, trimStart_app_space by done.
  destruct (Str.trimStart s) as [|c t]; [done|].
  by apply trimEnd_app_space.
Qed.

Lemma startsWith_app_space s ws needle :
  all_space ws → Forall (λ c, Str.is_space c = false) needle →
  Str.startsWith (s ++ ws) needle = Str.startsWith s needle.
Proof.
  intros Hws Hn. revert needle Hn. induction s as [|b s IH]; intros needle Hn.
  - destruct needle as [|a needle]; [by rewrite !startsWith_nil|].
    destruct ws as [|w ws]; [done|]. simpl.
    apply Forall_cons in Hws as [Hw _]. apply Forall_cons in Hn as [Ha _].
    case_decide; [congruence|done].
  - destruct needle as [|a needle]; [done|]. simpl.
    apply Forall_cons in Hn as [_ Hn]. case_decide; [by apply IH|done].
Qed.

Lemma digits_prefix_app_space R s ws :
  all_space ws → digits_prefix R (s ++ ws) = digits_prefix R s.
Proof.
  intros Hws. induction s as [|c s IH]; simpl.
  - destruct Hws as [|w ws Hw _]; [done|]. simpl. by rewrite digit_value_space.
  - destruct (digit_value c) as [d|]; [|done]. destruct (d <? R); [|done].
    by rewrite IH.
Qed.

Lemma startsWith_length s needle :
  Str.startsWith s needle = true → (length needle ≤ length s)%nat.
Proof.
  intros [post ->]%startsWith_spec. rewrite length_app. lia.
Qed.

End Padding.

Section PaddingParse.

Implicit Types s ws needle : jsstring.

Lemma parse_digits_pad (strip : bool) (R sign : Z) s ws :
  all_space ws →
  (let hex := strip && (Str.startsWith (s ++ ws) (lit "0x")
                        || Str.startsWith (s ++ ws) (lit "0X")) in
   match digits_prefix (if hex then 16 else R)
           (if hex then drop 2 (s ++ ws) else s ++ ws) with
   | [] => NaN
   | d :: ds => Num (sign * digits_value (if hex then 16 else R) (d :: ds))
   end) =
  (let hex := strip && (Str.startsWith s (lit "0x") || Str.startsWith s (lit "0X")) in
   match digits_prefix (if hex then 16 else R) (if hex then drop 2 s else s) with
   | [] => NaN
   | d :: ds => Num (sign * digits_value (if hex then 16 else R) (d :: ds))
   end).
Proof.
  intros Hws. cbv zeta.
  rewrite !startsWith_app_space by (done || by repeat constructor).
  destruct (strip && _) eqn:Hhex.
  - assert (Hlen : (2 ≤ length s)%nat).
    { apply andb_true_iff in Hhex as [_ [H|H]%orb_true_iff];
        by apply startsWith_length in H. }
    rewrite drop_app_le by done. by rewrite digits_prefix_app_space.
  - by rewrite digits_prefix_app_space.
Qed.

Lemma parseInt_app_space s ws radix :
  all_space ws → parseInt (s ++ ws) radix = parseInt s radix.
Proof.
  intros Hws. unfold parseInt. cbv zeta.
  rewrite trimStart_app_space by done.
  destruct (Str.trimStart s) as [|c t]; [done|].
  change ((c :: t) ++ ws) with (c :: (t ++ ws)). cbv iota.
  destruct (negb _ && _); [done|].
  destruct (decide (c = "+"%char ∨ c = "-"%char)).
  - by apply parse_digits_pad.
  - by apply (parse_digits_pad _ _ _ (c :: t)).
Qed.

Lemma parseInt_space_app ws s radix :
  all_space ws → parseInt (ws ++ s) radix = parseInt s radix.
Proof. intros Hws. unfold parseInt. by rewrite trimStart_space_app. Qed.

(** White space around a literal is not seen by [fancyParseInt]. *)
Lemma fancyParseInt_pad ws1 str ws2 :
  all_space ws1 → all_space ws2 →
  fancyParseInt (ws1 ++ str ++ ws2) = fancyParseInt str.
Proof.
  intros H1 H2. unfold fancyParseInt. cbv zeta.
  rewrite !toUpperCase_app, (toUpperCase_space ws1), (toUpperCase_space ws2) by done.
  rewrite trim_pad by done.
  by rewrite !(parseInt_space_app ws1), !(parseInt_app_space str ws2) by done.
Qed.

End PaddingParse.

(** X11: White space before and after a numeric literal does not change what
    [fancyParseInt] returns: the padded columns of a partition table parse
    like bare fields. *)
Theorem fancyParseInt_padding (ws1 str ws2 : jsstring) :
  all_space ws1 → all_space ws2 →
  fancyParseInt (ws1 ++ str ++ ws2) = fancyParseInt str.
Proof. apply fancyParseInt_pad. Qed.

Lemma fancyParseInt_padding_witness :
  fancyParseInt (lit "   " ++ lit "0x290000" ++ lit "  " ++ [CR]) = Num 0x290000.
Proof.
  rewrite (fancyParseInt_padding (lit "   ") (lit "0x290000") (lit "  " ++ [CR])).
  - by vm_compute.
  - repeat constructor.
  - repeat constructor.
Defined.

(** ** Parsing what the extension prints *)

Section PrintParse.

Import NumberToString TableSpec.
Implicit Types s : jsstring.

Lemma digit_char_value d : 0 <= d < 16 → digit_value (digit_char d) = Some d.
Proof.
  intros Hd.
  assert (d = 0 ∨ d = 1 ∨ d = 2 ∨ d = 3 ∨ d = 4 ∨ d = 5 ∨ d = 6 ∨ d = 7 ∨
          d = 8 ∨ d = 9 ∨ d = 10 ∨ d = 11 ∨ d = 12 ∨ d = 13 ∨ d = 14 ∨ d = 15)
    as H by lia.
  repeat (destruct H as [->|H]; [reflexivity|]). by subst.
Qed.

Lemma digit_char_decimal d : 0 <= d < 10 → decimal_char (digit_char d) = true.
Proof.
  intros Hd.
  assert (d = 0 ∨ d = 1 ∨ d = 2 ∨ d = 3 ∨ d = 4 ∨ d = 5 ∨ d = 6 ∨ d = 7 ∨
          d = 8 ∨ d = 9) as H by lia.
  repeat (destruct H as [->|H]; [reflexivity|]). by subst.
Qed.

Lemma digit_char_hex d : 0 <= d < 16 → hex_char (digit_char d) = true.
Proof.
  intros Hd.
  assert (d = 0 ∨ d = 1 ∨ d = 2 ∨ d = 3 ∨ d = 4 ∨ d = 5 ∨ d = 6 ∨ d = 7 ∨
          d = 8 ∨ d = 9 ∨ d = 10 ∨ d = 11 ∨ d = 12 ∨ d = 13 ∨ d = 14 ∨ d = 15)
    as H by lia.
  repeat (destruct H as [->|H]; [reflexivity|]). by subst.
Qed.

Lemma digits_chars (P : ascii → bool) f R n :
  1 < R → 0 <= n → (∀ d, 0 <= d < R → P (digit_char d) = true) →
  Forall (λ c, P c = true) (digits f R n).
Proof.
  intros HR Hn HP. revert n Hn. induction f as [|f IH]; intros n Hn; simpl; [done|].
  destruct (Z.ltb_spec n R).
  - repeat constructor. apply HP. lia.
  - apply Forall_app. split.
    + apply IH. apply Z.div_pos; lia.
    + repeat constructor. apply HP. apply Z.mod_pos_bound. lia.
Qed.

Lemma digits_nonempty f R n : digits (S f) R n ≠ [].
Proof. simpl. destruct (n <? R); [done|]. by destruct (digits f R (n / R)). Qed.

Lemma digit_values_nonempty f R n : digit_values (S f) R n ≠ [].
Proof. simpl. destruct (n <? R); [done|]. by destruct (digit_values f R (n / R)). Qed.

(** The digits printed are read back one by one. *)
Lemma digits_prefix_digits f R n rest :
  1 < R <= 16 → 0 <= n →
  digits_prefix R (digits f R n ++ rest) = digit_values f R n ++ digits_prefix R rest.
Proof.
  intros HR. revert n rest. induction f as [|f IH]; intros n rest Hn; simpl; [done|].
  destruct (Z.ltb_spec n R).
  - simpl. rewrite digit_char_value by lia.
    by rewrite (proj2 (Z.ltb_lt _ _)) by lia.
  - rewrite <- !app_assoc. rewrite IH by (apply Z.div_pos; lia). f_equal.
    pose proof (Z.mod_pos_bound n R ltac:(lia)).
    simpl. rewrite digit_char_value by lia.
    by rewrite (proj2 (Z.ltb_lt _ _)) by lia.
Qed.

Lemma digit_values_value f R n :
  1 < R → 0 <= n < 2 ^ Z.of_nat f → digits_value R (digit_values f R n) = n.
Proof.
  intros HR. unfold digits_value.
  revert n. induction f as [|f IH]; intros n Hn.
  - simpl in *. lia.
  - cbn [digit_values]. destruct (Z.ltb_spec n R); [simpl; lia|].
    rewrite fold_left_app. cbn [fold_left]. rewrite IH.
    + pose proof (Z.div_mod n R). lia.
    + rewrite Nat2Z.inj_succ, Z.pow_succ_r in Hn by lia.
      split; [apply Z.div_pos; lia|].
      apply Z.div_lt_upper_bound; [lia|]. nia.
Qed.

Lemma fuel_enough n : 0 <= n → n < 2 ^ Z.of_nat (fuel n).
Proof.
  intros Hn. unfold fuel. rewrite Nat2Z.inj_succ, Z2Nat.id by apply Z.log2_nonneg.
  destruct (Z.eq_dec n 0) as [->|]; [done|].
  apply Z.log2_spec. lia.
Qed.

(** Reading the digits of [n] gives [n] back. *)
Lemma read_own_digits R n :
  1 < R <= 16 → 0 <= n →
  ∃ d ds, digits_prefix R (digits (fuel n) R n) = d :: ds ∧
          digits_value R (d :: ds) = n.
Proof.
  intros HR Hn.
  pose proof (digits_prefix_digits (fuel n) R n [] HR Hn) as Hp.
  rewrite !app_nil_r in Hp.
  pose proof (digit_values_value (fuel n) R n ltac:(lia)
                (conj Hn (fuel_enough n Hn))) as Hv.
  destruct (digit_values (fuel n) R n) as [|d ds] eqn:He.
  - by apply digit_values_nonempty in He.
  - by exists d, ds.
Qed.

End PrintParse.

Section PrintParseLiterals.

Import NumberToString TableSpec.
Implicit Types s T : jsstring.

Lemma decimal_char_facts c :
  decimal_char c = true →
  Str.is_space c = false ∧ Str.upper_char c = c ∧
  c ≠ "K"%char ∧ c ≠ "M"%char ∧ c ≠ "X"%char ∧ c ≠ "x"%char.
Proof. destruct c as [[] [] [] [] [] [] [] []]; by vm_compute. Qed.

Lemma hex_char_facts c :
  hex_char c = true →
  Str.is_space c = false ∧ c ≠ "-"%char ∧ c ≠ "+"%char ∧ c ≠ "x"%char ∧
  c ≠ "X"%char.
Proof. destruct c as [[] [] [] [] [] [] [] []]; by vm_compute. Qed.

Lemma trim_nonspace s : Forall (λ c, Str.is_space c = false) s → Str.trim s = s.
Proof.
  intros Hs.
  assert (Hstart : ∀ t, Forall (λ c, Str.is_space c = false) t → Str.trimStart t = t).
  { intros [|c t] Ht; [done|]. simpl. apply Forall_cons in Ht as [-> _]. done. }
  unfold Str.trim, Str.trimEnd. rewrite (Hstart s Hs), Hstart.
  - apply rev_involutive.
  - rewrite Forall_forall in *. intros c Hc. apply Hs.
    by apply list_elem_of_In, in_rev, list_elem_of_In.
Qed.

Lemma decimal_string_upper T :
  Forall (λ c, decimal_char c = true) T → Str.toUpperCase T = T.
Proof.
  induction 1 as [|c T Hc _ IH]; [done|]. unfold Str.toUpperCase in *.
  cbn [map]. rewrite IH. by destruct (decimal_char_facts c Hc) as (_ & -> & _).
Qed.

Lemma decimal_string_nonspace T :
  Forall (λ c, decimal_char c = true) T → Forall (λ c, Str.is_space c = false) T.
Proof.
  intros HT. eapply Forall_impl; [exact HT|].
  intros c Hc. by destruct (decimal_char_facts c Hc).
Qed.

Lemma decimal_string_lacks T c :
  Forall (λ c, decimal_char c = true) T → decimal_char c = false → c ∉ T.
Proof.
  rewrite Forall_forall. intros HT Hc Hin. apply HT in Hin. congruence.
Qed.

Lemma not_contains_char needle c s : c ∈ needle → c ∉ s → ¬ contains needle s.
Proof.
  intros Hc Hs (pre & post & ->). apply Hs.
  rewrite !elem_of_app. auto.
Qed.

Lemma parseInt_10 s :
  parseInt s (Some 10) =
  match digits_prefix 10 (after_sign s) with
  | [] => NaN
  | d :: ds =>
      Num ((match Str.trimStart s with
            | c :: _ => if decide (c = "-"%char) then -1 else 1
            | [] => 1
            end) * digits_value 10 (d :: ds))
  end.
Proof. reflexivity. Qed.

Lemma parseInt_0x H :
  parseInt (lit "0x" ++ H) (Some 16) =
  match digits_prefix 16 H with
  | [] => NaN
  | d :: ds => Num (1 * digits_value 16 (d :: ds))
  end.
Proof.
  unfold parseInt. cbv zeta. change (JS.ToInt32 16) with 16.
  change (Str.trimStart (lit "0x" ++ H)) with ("0"%char :: "x"%char :: H).
  cbv iota.
  rewrite (decide_False (P := "0"%char = "-"%char)) by (intros ?; discriminate).
  rewrite (decide_False (P := "0"%char = "+"%char ∨ "0"%char = "-"%char))
    by (intros [?|?]; discriminate).
  change (Str.startsWith ("0"%char :: "x"%char :: H) (lit "0x"))
    with (Str.startsWith H []).
  rewrite startsWith_nil. reflexivity.
Qed.

(** The parser reads a printed decimal number back. *)
Lemma parseInt_toString n : parseInt (String_ n) (Some 10) = Num n.
Proof.
  rewrite parseInt_10. unfold String_, toString, after_sign. cbv zeta.
  destruct (Z.ltb_spec n 0) as [Hneg|Hpos].
  - change (Str.trimStart ("-"%char :: ?D)) with ("-"%char :: D).
    cbv iota.
    rewrite (decide_True (P := "-"%char = "+"%char ∨ "-"%char = "-"%char)) by (by right).
    rewrite (decide_True (P := "-"%char = "-"%char)) by done.
    destruct (read_own_digits 10 (- n)) as (d & ds & -> & Hv); [lia..|].
    rewrite Hv. f_equal. lia.
  - destruct (read_own_digits 10 n) as (d & ds & Hp & Hv); [lia..|].
    pose proof (digits_chars hex_char (fuel n) 10 n ltac:(lia) Hpos
                  (λ d Hd, digit_char_hex d ltac:(lia))) as Hchars.
    destruct (digits (fuel n) 10 n) as [|c t] eqn:HD; [done|].
    apply Forall_cons in Hchars as [Hc _].
    destruct (hex_char_facts c Hc) as (Hsp & Hminus & Hplus & _).
    simpl Str.trimStart. rewrite Hsp. cbv iota.
    rewrite (decide_False (P := c = "+"%char ∨ c = "-"%char)) by (by intros [|]).
    rewrite (decide_False (P := c = "-"%char)) by done.
    rewrite Hp, Hv. f_equal. lia.
Qed.

Lemma toString_decimal_chars n :
  Forall (λ c, decimal_char c = true) (String_ n) ∧ String_ n ≠ [].
Proof.
  unfold String_, toString. destruct (Z.ltb_spec n 0).
  - split; [|done]. constructor; [done|].
    apply digits_chars; [lia..|]. intros d Hd. by apply digit_char_decimal.
  - split; [|apply digits_nonempty].
    apply digits_chars; [lia..|]. intros d Hd. by apply digit_char_decimal.
Qed.

End PrintParseLiterals.

Section PrintParseFancy.

Import NumberToString TableSpec.
Implicit Types s T : jsstring.

Lemma fancyParseInt_branches str :
  fancyParseInt str =
  let up := Str.trim (Str.toUpperCase str) in
  if decide (up = [])
  then Num 0
  else if 0 <=? Str.indexOf up (lit "0X") then parseInt str (Some 16)
  else if 0 <=? Str.indexOf up ["K"%char] then
    Number.mul (Num 1024)
      (parseInt (Str.substring up 0 (Str.indexOf up ["K"%char])) None)
  else if 0 <=? Str.indexOf up ["M"%char] then
    Number.mul (Num (1024 * 1024))
      (parseInt (Str.substring up 0 (Str.indexOf up ["M"%char])) None)
  else parseInt str None.
Proof. reflexivity. Qed.

Lemma decimal_string_no_hex T tail :
  Forall (λ c, decimal_char c = true) T → "X"%char ∉ tail →
  ¬ contains (lit "0X") (T ++ tail).
Proof.
  intros HT Htail. apply (not_contains_char _ "X"%char).
  - by apply elem_of_cons; right; apply elem_of_cons; left.
  - rewrite elem_of_app. intros [Hin|Hin]; [|done].
    by apply (decimal_string_lacks T "X"%char HT).
Qed.

(** A printed decimal number, alone. *)
Lemma fancyParseInt_decimal_string T :
  Forall (λ c, decimal_char c = true) T → T ≠ [] →
  fancyParseInt T = parseInt T (Some 10).
Proof.
  intros HT Hne. rewrite fancyParseInt_branches. cbv zeta.
  rewrite decimal_string_upper, trim_nonspace
    by (done || by apply decimal_string_nonspace).
  rewrite decide_False by done.
  rewrite (proj2 (indexOf_not_contains T (lit "0X"))).
  2:{ rewrite <- (app_nil_r T). apply decimal_string_no_hex; [done|]. apply not_elem_of_nil. }
  rewrite (proj2 (indexOf_not_contains T ["K"%char]))
    by (rewrite contains_char; by apply decimal_string_lacks).
  rewrite (proj2 (indexOf_not_contains T ["M"%char]))
    by (rewrite contains_char; by apply decimal_string_lacks).
  apply parseInt_decimal.
  - apply (not_contains_char _ "x"%char);
      [by apply elem_of_cons; right; apply elem_of_cons; left|].
    by apply decimal_string_lacks.
  - rewrite <- (app_nil_r T). apply decimal_string_no_hex; [done|]. apply not_elem_of_nil.
Qed.

(** A printed decimal number followed by a unit, in either case. *)
Lemma fancyParseInt_unit_string T (u U : ascii) :
  Forall (λ c, decimal_char c = true) T →
  Str.upper_char u = U → U = "K"%char ∨ U = "M"%char →
  fancyParseInt (T ++ [u]) =
  Number.mul (Num (if decide (U = "K"%char) then 1024 else 1024 * 1024))
    (parseInt T (Some 10)).
Proof.
  intros HT Hu HU. rewrite fancyParseInt_branches.
  assert (Hup : Str.trim (Str.toUpperCase (T ++ [u])) = T ++ [U] ++ []).
  { rewrite toUpperCase_app, decimal_string_upper by done.
    change (Str.toUpperCase [u]) with [Str.upper_char u]. rewrite Hu.
    apply trim_nonspace, Forall_app. split; [by apply decimal_string_nonspace|].
    repeat constructor. by destruct HU as [-> | ->]. }
  assert (Hhex : ¬ contains (lit "0X") (Str.trim (Str.toUpperCase (T ++ [u])))).
  { rewrite Hup. apply decimal_string_no_hex; [done|].
    destruct HU as [-> | ->]; by intros [?|[]%elem_of_nil]%elem_of_cons. }
  assert (HUT : U ∉ T)
    by (apply decimal_string_lacks; [done|by destruct HU as [-> | ->]]).
  destruct (unit_prefix_decimal (T ++ [u]) U T [] Hhex Hup HUT) as [Hidx Hparse].
  cbv zeta.
  rewrite decide_False by (rewrite Hup; by destruct T).
  rewrite (proj2 (indexOf_not_contains _ _) Hhex).
  destruct HU as [-> | ->].
  - rewrite Hidx, Hparse. by rewrite decide_True.
  - rewrite (proj2 (indexOf_not_contains _ ["K"%char])).
    + rewrite Hidx, Hparse. by rewrite decide_False.
    + rewrite contains_char, Hup, elem_of_app.
      intros [Hin|Hin]; [by apply (decimal_string_lacks T "K"%char HT)|].
      by apply elem_of_cons in Hin as [?|[]%elem_of_nil].
Qed.

(** A printed hexadecimal number behind [0x]. *)
Lemma fancyParseInt_hex_string n :
  0 <= n → fancyParseInt (lit "0x" ++ toString n 16) = Num n.
Proof.
  intros Hn. rewrite fancyParseInt_branches. cbv zeta.
  assert (Hhex : contains (lit "0X")
                   (Str.trim (Str.toUpperCase (lit "0x" ++ toString n 16)))).
  { apply contains_0X_trim. rewrite toUpperCase_app. by eexists [], _. }
  rewrite decide_False by (by apply (contains_nonempty (lit "0X"))).
  rewrite (proj2 (indexOf_contains _ _) Hhex).
  rewrite parseInt_0x. unfold toString. rewrite (proj2 (Z.ltb_ge _ _)) by done.
  destruct (read_own_digits 16 n) as (d & ds & -> & Hv); [lia..|].
  rewrite Hv. f_equal. lia.
Qed.

End PrintParseFancy.

(** X12: [fancyParseInt] reads back what the extension prints. For a safe
    integer [n], the decimal form [String(n)] gives [n]; with a K or an M
    behind it, in either case, 1024 or 1024 * 1024 times [n]; and
    ["0x" + n.toString(16)] of a non-negative [n] gives [n]. *)
Theorem fancyParseInt_reads_printed (n : Z) :
  is_safe_integer n →
  fancyParseInt (String_ n) = Num n ∧
  fancyParseInt (String_ n ++ lit "K") = Num (1024 * n) ∧
  fancyParseInt (String_ n ++ lit "k") = Num (1024 * n) ∧
  fancyParseInt (String_ n ++ lit "M") = Num (1024 * 1024 * n) ∧
  fancyParseInt (String_ n ++ lit "m") = Num (1024 * 1024 * n) ∧
  (0 <= n → fancyParseInt (lit "0x" ++ NumberToString.toString n 16) = Num n).
Proof.
  intros _.
  destruct (toString_decimal_chars n) as [HT Hne].
  pose proof (parseInt_toString n) as Hp.
  split; [by rewrite fancyParseInt_decimal_string|].
  split; [by rewrite (fancyParseInt_unit_string _ "K"%char "K"%char), Hp; auto|].
  split; [by rewrite (fancyParseInt_unit_string _ "k"%char "K"%char), Hp; auto|].
  split; [by rewrite (fancyParseInt_unit_string _ "M"%char "M"%char), Hp; auto|].
  split; [by rewrite (fancyParseInt_unit_string _ "m"%char "M"%char), Hp; auto|].
  apply fancyParseInt_hex_string.
Qed.

Lemma fancyParseInt_reads_printed_witness :
  fancyParseInt (String_ 0x290000) = Num 0x290000 ∧
  fancyParseInt (lit "0x" ++ NumberToString.toString 0x290000 16) = Num 0x290000.
Proof.
  destruct (fancyParseInt_reads_printed 0x290000) as (Hdec & _ & _ & _ & _ & Hhex).
  - unfold is_safe_integer. lia.
  - split; [exact Hdec|]. apply Hhex. lia.
Defined.

(** ** Lines, comments and line endings *)

Section Lines.

Import TableSpec.
Implicit Types line text s ws : jsstring.
Implicit Types row : list jsstring.

Lemma split_nonempty s sep : Str.split s sep ≠ [].
Proof.
  destruct s as [|c s]; [done|]. simpl.
  case_decide; [done|]. by destruct (Str.split s sep).
Qed.

Lemma split_cons_sep s sep : Str.split (sep :: s) sep = [] :: Str.split s sep.
Proof. simpl. by rewrite decide_True. Qed.

Lemma split_cons_other c s sep :
  c ≠ sep →
  ∃ field fields,
    Str.split s sep = field :: fields ∧
    Str.split (c :: s) sep = (c :: field) :: fields.
Proof.
  intros Hc. simpl. rewrite decide_False by done.
  pose proof (split_nonempty s sep) as Hne.
  destruct (Str.split s sep) as [|field fields]; [done|]. by exists field, fields.
Qed.

(** A string without the separator is one field. *)
Lemma split_nosep s sep : sep ∉ s → Str.split s sep = [s].
Proof.
  induction s as [|c s IH]; [done|]. intros Hnin.
  destruct (split_cons_other c s sep) as (field & fields & Hs & ->); [set_solver|].
  rewrite IH in Hs by set_solver. by injection Hs as <- <-.
Qed.

Lemma split_app_sep s t sep :
  Str.split (s ++ sep :: t) sep = Str.split s sep ++ Str.split t sep.
Proof.
  induction s as [|c s IH]; [by cbn [app]; rewrite split_cons_sep|].
  destruct (decide (c = sep)) as [->|Hc].
  - cbn [app]. by rewrite !split_cons_sep, IH.
  - cbn [app].
    destruct (split_cons_other c s sep Hc) as (f & fs & Hs & ->).
    destruct (split_cons_other c (s ++ sep :: t) sep Hc) as (f' & fs' & Hs' & ->).
    rewrite IH, Hs in Hs'. by injection Hs' as <- <-.
Qed.

(** Text without the separator behind a string goes to its last field. *)
Lemma split_app_last s ws sep :
  sep ∉ ws →
  ∃ init l,
    Str.split s sep = init ++ [l] ∧ Str.split (s ++ ws) sep = init ++ [l ++ ws].
Proof.
  intros Hws. induction s as [|c s (init & l & Hs & Hsw)].
  - exists [], []. split; [done|]. cbn [app]. by apply split_nosep.
  - destruct (decide (c = sep)) as [->|Hc].
    + exists ([] :: init), l. cbn [app]. by rewrite !split_cons_sep, Hs, Hsw.
    + cbn [app].
      destruct (split_cons_other c s sep Hc) as (f & fs & Hf & ->).
      destruct (split_cons_other c (s ++ ws) sep Hc) as (f' & fs' & Hf' & ->).
      rewrite Hs in Hf. rewrite Hsw in Hf'.
      destruct init as [|i init].
      * injection Hf as <- <-. injection Hf' as <- <-. by exists [], (c :: l).
      * injection Hf as <- <-. injection Hf' as <- <-. by exists ((c :: i) :: init), l.
Qed.

Lemma before_cons c x s :
  before c (x :: s) = if decide (x = c) then [] else x :: before c s.
Proof. reflexivity. Qed.

Lemma before_app_in c s t : c ∈ s → before c (s ++ t) = before c s.
Proof.
  induction s as [|x s IH]; [by intros ?%elem_of_nil|].
  intros Hin. cbn [app]. rewrite !before_cons.
  case_decide; [done|]. f_equal. apply IH.
  by apply elem_of_cons in Hin as [->|Hin].
Qed.

Lemma before_app_notin c s t : c ∉ s → before c (s ++ t) = s ++ before c t.
Proof.
  induction s as [|x s IH]; [done|].
  intros Hnin. cbn [app]. rewrite before_cons.
  rewrite decide_False by set_solver. rewrite IH by set_solver. done.
Qed.

Lemma space_not c ws : Str.is_space c = false → all_space ws → c ∉ ws.
Proof.
  intros Hc Hws Hin. unfold all_space in Hws. rewrite Forall_forall in Hws.
  apply Hws in Hin. congruence.
Qed.

(** The loop body reads its line through the text before the comment. *)
Lemma scan_line_before st line line' :
  before "#"%char line = before "#"%char line' → scan_line st line = scan_line st line'.
Proof. intros H. rewrite !scan_line_fields. cbv zeta. by rewrite H. Qed.

(** What the loop body reads of a row: its length and three fields. *)
Lemma scan_entry_ext st row row' :
  nth 2 row [] = nth 2 row' [] →
  fancyParseInt (nth 3 row []) = fancyParseInt (nth 3 row' []) →
  fancyParseInt (nth 4 row []) = fancyParseInt (nth 4 row' []) →
  scan_entry st row = scan_entry st row'.
Proof. intros H2 H3 H4. unfold scan_entry. cbv zeta. by rewrite H2, H3, H4. Qed.

(** White space at the end of a line is not seen by the loop body. *)
Lemma scan_line_trailing st line ws :
  all_space ws → scan_line st (line ++ ws) = scan_line st line.
Proof.
  intros Hws.
  destruct (decide ("#"%char ∈ line)) as [Hin|Hnin].
  { apply scan_line_before. by apply before_app_in. }
  rewrite !scan_line_fields. cbv zeta.
  rewrite before_app_notin by done.
  rewrite (before_absent _ ws) by (by apply space_not).
  rewrite (before_absent _ line) by done.
  destruct (split_app_last line ws ","%char) as (init & l & -> & ->);
    [by apply space_not|].
  rewrite !length_app. cbn [length].
  case_decide as Hlen; [|done].
  assert (4 ≤ length init)%nat as Hinit by lia.
  apply scan_entry_ext.
  - by rewrite !app_nth1 by lia.
  - by rewrite !app_nth1 by lia.
  - destruct (decide (length init = 4%nat)) as [Heq|Hneq].
    + rewrite !app_nth2 by lia. rewrite Heq. cbn [Nat.sub nth].
      apply (fancyParseInt_pad [] l ws); [constructor|done].
    + by rewrite !app_nth1 by lia.
Qed.

(** Lines related pairwise are scanned alike. *)
Lemma fold_scan_line_rel (R : jsstring → jsstring → Prop) lines lines' st :
  (∀ st line line', R line line' → scan_line st line = scan_line st line') →
  Forall2 R lines lines' →
  fold_left scan_line lines st = fold_left scan_line lines' st.
Proof.
  intros HR Hall. revert st.
  induction Hall as [|line line' lines lines' Hl _ IH]; intros st; [done|].
  cbn [fold_left]. by rewrite (HR st line line' Hl), IH.
Qed.

(** A relation kept by a character in front is kept by a text in front. *)
Lemma split_app_rel (R : jsstring → jsstring → Prop) a x y :
  R [] [] →
  (∀ c l l', R l l' → R (c :: l) (c :: l')) →
  Forall2 R (Str.split x newline) (Str.split y newline) →
  Forall2 R (Str.split (a ++ x) newline) (Str.split (a ++ y) newline).
Proof.
  intros Hnil Hcons Hxy. induction a as [|c a IH]; [done|].
  cbn [app].
  destruct (decide (c = newline)) as [->|Hc].
  - rewrite !split_cons_sep. by constructor.
  - destruct (split_cons_other c (a ++ x) newline Hc) as (f & fs & Hf & ->).
    destruct (split_cons_other c (a ++ y) newline Hc) as (f' & fs' & Hf' & ->).
    rewrite Hf, Hf' in IH. inversion IH; subst. constructor; [|done]. by apply Hcons.
Qed.

Lemma Forall2_diag (R : jsstring → jsstring → Prop) lines :
  (∀ l, R l l) → Forall2 R lines lines.
Proof. intros HR. induction lines; by constructor. Qed.

Lemma CR_not_newline : CR ≠ newline.
Proof. discriminate. Qed.

(** The lines of a text with CR LF line ends are those of the text, each
    but the last with a CR behind it. *)
Lemma split_replace_newlines text :
  Forall2 (λ l l', l = l' ∨ l = l' ++ [CR])
    (Str.split (replace_newlines text) newline) (Str.split text newline).
Proof.
  induction text as [|c text IH]; [by repeat constructor|].
  cbn [replace_newlines]. destruct (decide (c = newline)) as [->|Hc].
  - unfold CRLF. cbn [app]. rewrite split_cons_sep.
    destruct (split_cons_other CR (newline :: replace_newlines text) newline CR_not_newline)
      as (f & fs & Hf & ->).
    rewrite split_cons_sep in Hf. injection Hf as <- <-.
    constructor; [by right|].
    eapply Forall2_impl; [exact IH|]. done.
  - cbn [app].
    destruct (split_cons_other c (replace_newlines text) newline Hc) as (f & fs & Hf & ->).
    destruct (split_cons_other c text newline Hc) as (f' & fs' & Hf' & ->).
    rewrite Hf, Hf' in IH. inversion IH as [|? ? ? ? Hhd Htl]; subst.
    constructor; [|done]. destruct Hhd as [->| ->]; [by left|by right].
Qed.

Lemma scan_replace_newlines text :
  doOperation_scan (replace_newlines text) = doOperation_scan text.
Proof.
  unfold doOperation_scan. cbv zeta.
  apply (fold_scan_line_rel (λ l l', l = l' ∨ l = l' ++ [CR]));
    [|apply split_replace_newlines].
  intros st line line' [->| ->]; [done|].
  apply scan_line_trailing. by repeat constructor.
Qed.

Lemma scan_comment a comment b :
  newline ∉ comment →
  doOperation_scan (a ++ "#"%char :: comment ++ newline :: b) =
    doOperation_scan (a ++ newline :: b) ∧
  doOperation_scan (a ++ "#"%char :: comment) = doOperation_scan a.
Proof.
  intros Hc. unfold doOperation_scan. cbv zeta.
  assert (Hhash : "#"%char ≠ newline) by discriminate.
  assert (Hline : Str.split ("#"%char :: comment) newline = ["#"%char :: comment])
    by (apply split_nosep; intros [?|?]%elem_of_cons; [discriminate|done]).
  split.
  - apply (fold_scan_line_rel (λ l l', before "#"%char l = before "#"%char l'));
      [intros; by apply scan_line_before|].
    apply split_app_rel; [done|by intros c l l' Hl; rewrite !before_cons, Hl|].
    rewrite app_comm_cons, split_app_sep, Hline, split_cons_sep.
    constructor; [by rewrite before_cons, decide_True|by apply Forall2_diag].
  - rewrite <- (app_nil_r a) at 2.
    apply (fold_scan_line_rel (λ l l', before "#"%char l = before "#"%char l'));
      [intros; by apply scan_line_before|].
    apply split_app_rel; [done|by intros c l l' Hl; rewrite !before_cons, Hl|].
    rewrite Hline. by repeat constructor.
Qed.

(** In a table of rows with sizes that are not negative, the cursor stays
    positive and every entry has a positive start and an end behind it. *)
Lemma resolve_well_formed cursor rows :
  0 < cursor → Forall row_sizes_ok rows →
  Forall (λ e, ∃ start size,
            e_offset e = Num start ∧ e_size e = Num size ∧ 0 < start ∧ 0 <= size)
    (resolve (Num cursor) rows).
Proof.
  intros Hcur Hrows. revert cursor Hcur.
  induction Hrows as [|row rows (offset & size & Ho & Hs & Hoff & Hsize) _ IH];
    intros cursor Hcur; [constructor|].
  cbn [resolve]. cbv zeta. rewrite Ho, Hs. cbn [Number.strict_eq].
  destruct (Z.eqb_spec offset 0) as [->|Hne].
  - constructor; [by exists cursor, size|]. cbn [Number.add]. apply IH. lia.
  - constructor; [exists offset, size; repeat split; (done || lia)|].
    cbn [Number.add]. apply IH. lia.
Qed.

Lemma locate_rows_ok text :
  Forall row_sizes_ok (rows text) →
  (∃ row, row ∈ rows text ∧ is_fat row) →
  ∃ start end_, doOperation_locate text = FatRange start end_ ∧ 0 < start <= end_.
Proof.
  intros Hrows [e He]%fat_rows_entries.
  destruct (scan_result text) as [Hs He']. cbv zeta in Hs, He'.
  unfold doOperation_locate. cbv zeta. rewrite Hs, He', He. cbn [from_option].
  assert (Hin : e ∈ entries text).
  { unfold last_fat in He. apply last_Some_elem_of in He.
    by apply list_elem_of_filter in He as [_ ?]. }
  pose proof (resolve_well_formed base_cursor (rows text) ltac:(by vm_compute) Hrows)
    as Hall.
  rewrite Forall_forall in Hall.
  destruct (Hall e Hin) as (start & size & -> & -> & Hstart & Hsize).
  exists start, (start + size). cbn [Number.add Number.falsy].
  rewrite (proj2 (Z.eqb_neq start 0)), (proj2 (Z.eqb_neq (start + size) 0)) by lia.
  split; [done|lia].
Qed.

End Lines.

(** X13: A partition table saved with CR LF line ends is scanned like the same
    table with LF line ends: the CR left at the end of every line by
    [split("\n")] changes neither the range found nor the not-found error. *)
Theorem locate_crlf (text : jsstring) :
  doOperation_locate (replace_newlines text) = doOperation_locate text.
Proof. unfold doOperation_locate. cbv zeta. by rewrite scan_replace_newlines. Qed.

(** X14: What follows a [#] up to the end of its line is not read by the scan:
    a comment can be put behind any line, or at the end of the text, without
    changing the outcome. *)
Theorem locate_ignores_comments (a comment b : jsstring) :
  newline ∉ comment →
  doOperation_locate (a ++ "#"%char :: comment ++ newline :: b) =
    doOperation_locate (a ++ newline :: b) ∧
  doOperation_locate (a ++ "#"%char :: comment) = doOperation_locate a.
Proof.
  intros Hc. destruct (scan_comment a comment b Hc) as [H1 H2].
  unfold doOperation_locate. cbv zeta. by rewrite H1, H2.
Qed.

Lemma locate_ignores_comments_witness :
  doOperation_locate
    (lit "ffat, data, fat, 0x290000, 0x160000," ++
     "#"%char :: lit " FAT, subtype fat, 0x10000, 1M," ++ newline :: lit "") =
  doOperation_locate (lit "ffat, data, fat, 0x290000, 0x160000," ++ newline :: lit "").
Proof.
  apply (locate_ignores_comments
           (lit "ffat, data, fat, 0x290000, 0x160000,")
           (lit " FAT, subtype fat, 0x10000, 1M,") (lit "")).
  vm_compute. intros Hin.
  repeat (apply elem_of_cons in Hin as [Hin|Hin]; [discriminate Hin|]).
  by apply elem_of_nil in Hin.
Defined.

(** X15: When the offset and the size of every row parse to numbers that are not
    negative and some row has the subtype FAT, the scan finds a range with
    0 < fsStart <= fsEnd: the size handed to the layout calculator,
    fsEnd - fsStart, is not negative. *)
Theorem locate_well_formed (text : jsstring) :
  Forall row_sizes_ok (TableSpec.rows text) →
  (∃ row, row ∈ TableSpec.rows text ∧ TableSpec.is_fat row) →
  ∃ start end_,
    doOperation_locate text = FatRange start end_ ∧ 0 < start <= end_.
Proof. apply locate_rows_ok. Qed.

Lemma locate_well_formed_witness :
  ∃ start end_,
    doOperation_locate table_with_ffat = FatRange start end_ ∧ 0 < start <= end_.
Proof.
  apply (locate_well_formed table_with_ffat).
  - apply Forall_forall. intros row Hin.
    apply list_elem_of_In in Hin. vm_compute in Hin.
    repeat (destruct Hin as [<-|Hin];
            [eexists _, _; split; [by vm_compute|]; split; [by vm_compute|]; split; done|]).
    destruct Hin.
  - exists (map lit ["ffat"; "     data"; " fat"; "     0x290000"; "0x160000"; ""])%string.
    split; [|by vm_compute].
    apply (list_elem_of_lookup_2 _ 4). by vm_compute.
Defined.

(** ** Tool lookup *)

Section ToolLookup.

Variable props : Arduino.Properties.
Variable match_ : jsstring.

Implicit Types k : jsstring.
Implicit Types v : option jsstring.

Lemma findTool_visit_found k ret :
  findTool_visit props match_ (true, ret) k = (true, ret).
Proof. unfold findTool_visit. cbn [negb]. by rewrite andb_false_r. Qed.

Lemma findTool_visit_take k val ret :
  Str.startsWith k match_ = true → Arduino.get props k = Some val →
  findTool_visit props match_ (false, ret) k = (true, Some val).
Proof.
  intros Hk Hv. unfold findTool_visit.
  by rewrite Hk, Hv, bool_decide_eq_true_2.
Qed.

(** Once set, [found] keeps the loop from assigning again. *)
Lemma findTool_found ks ret :
  fold_left (findTool_visit props match_) ks (true, ret) = (true, ret).
Proof.
  induction ks as [|k ks IH]; [done|]. cbn [fold_left].
  by rewrite findTool_visit_found, IH.
Qed.

Lemma findTool_skip ks k st :
  (Str.startsWith k match_ = true → Arduino.get props k = None) →
  fold_left (findTool_visit props match_) (k :: ks) st =
  fold_left (findTool_visit props match_) ks st.
Proof.
  intros Hk. cbn [fold_left]. f_equal. destruct st as [found ret].
  unfold findTool_visit.
  destruct (Str.startsWith k match_); [|done].
  rewrite Hk by done. rewrite bool_decide_eq_false_2 by (by intros ?).
  by rewrite andb_false_r.
Qed.

Lemma findTool_take ks k val ret :
  Str.startsWith k match_ = true → Arduino.get props k = Some val →
  fold_left (findTool_visit props match_) (k :: ks) (false, ret) = (true, Some val).
Proof.
  intros Hk Hv. cbn [fold_left].
  rewrite (findTool_visit_take k val ret) by done. apply findTool_found.
Qed.

Lemma findTool_fold_none ks :
  (∀ k, k ∈ ks → Str.startsWith k match_ = true → Arduino.get props k = None) →
  fold_left (findTool_visit props match_) ks (false, None) = (false, None).
Proof.
  induction ks as [|k ks IH]; [done|]. intros Hall.
  rewrite findTool_skip by (apply Hall; by left).
  apply IH. intros k' Hin. apply Hall. by right.
Qed.

Lemma findTool_fold_first ks1 k val ks2 :
  (∀ k', k' ∈ ks1 → Str.startsWith k' match_ = true → Arduino.get props k' = None) →
  Str.startsWith k match_ = true → Arduino.get props k = Some val →
  fold_left (findTool_visit props match_) (ks1 ++ k :: ks2) (false, None) =
  (true, Some val).
Proof.
  intros Hall Hk Hv. rewrite fold_left_app, findTool_fold_none by done.
  by apply findTool_take.
Qed.

Lemma findTool_fold_inv ks :
  snd (fold_left (findTool_visit props match_) ks (false, None)) = None →
  ∀ k, k ∈ ks → Str.startsWith k match_ = true → Arduino.get props k = None.
Proof.
  induction ks as [|k ks IH]; [by intros _ k ?%elem_of_nil|].
  intros Hnone.
  assert (Hk : Str.startsWith k match_ = true → Arduino.get props k = None).
  { intros Hstart. destruct (Arduino.get props k) as [val|] eqn:Hv; [|done].
    by rewrite (findTool_take ks k val None) in Hnone. }
  rewrite findTool_skip in Hnone by done.
  intros k' [->|Hin]%elem_of_cons; [done|]. by apply IH.
Qed.

End ToolLookup.

Section PropertyLookup.

Implicit Types props : Arduino.Properties.

(** A key that occurs once holds the value written beside it. *)
Lemma get_elem_of props k v :
  NoDup (Arduino.keys props) → (k, v) ∈ props → Arduino.get props k = v.
Proof.
  induction props as [|[k' v'] props IH]; [by intros _ ?%elem_of_nil|].
  unfold Arduino.keys. cbn [map fst]. intros [Hk' Hnd]%NoDup_cons.
  intros [Heq|Hin]%elem_of_cons; cbn [Arduino.get].
  - injection Heq as -> ->. by rewrite decide_True.
  - rewrite decide_False; [by apply IH|].
    intros ->. apply Hk'. apply list_elem_of_fmap. by exists (k, v).
Qed.

Lemma startsWith_shorter s needle more :
  Str.startsWith s (needle ++ more) = true → Str.startsWith s needle = true.
Proof.
  intros [post ->]%startsWith_spec. apply startsWith_spec.
  exists (more ++ post). by rewrite app_assoc.
Qed.

End PropertyLookup.

(** X16: [findTool] returns the value of the first key, in the order of
    [Object.keys], that starts with [match] and holds a value: later keys
    with the prefix are not looked at, and keys before it that start with
    [match] hold [undefined]. *)
Theorem findTool_first (ctx : Arduino.ArduinoContext) (details : Arduino.BoardDetails)
    (match_ : jsstring) (props1 props2 : Arduino.Properties) (k val : jsstring) :
  Arduino.boardDetails ctx = Some details →
  Arduino.buildProperties details = props1 ++ (k, Some val) :: props2 →
  NoDup (Arduino.keys (Arduino.buildProperties details)) →
  Str.startsWith k match_ = true →
  (∀ k' val', (k', Some val') ∈ props1 → Str.startsWith k' match_ = false) →
  findTool ctx match_ = Some val.
Proof.
  intros Hctx Hprops Hnd Hk Hbefore. unfold findTool. rewrite Hctx. cbv zeta.
  assert (Hkeys : Arduino.keys (Arduino.buildProperties details) =
                  Arduino.keys props1 ++ k :: Arduino.keys props2).
  { rewrite Hprops. unfold Arduino.keys. by rewrite map_app. }
  rewrite Hkeys.
  rewrite (findTool_fold_first _ _ (Arduino.keys props1) k val); [done| |done|].
  - intros k' Hin Hstart.
    apply list_elem_of_fmap in Hin as ([k'' v'] & -> & Hin). cbn [fst] in *.
    destruct v' as [val'|].
    + rewrite (Hbefore _ _ Hin) in Hstart. discriminate.
    + apply get_elem_of; [done|]. rewrite Hprops. apply elem_of_app. by left.
  - apply get_elem_of; [done|]. rewrite Hprops. apply elem_of_app. right. by left.
Qed.

Lemma findTool_first_witness :
  findTool
    {| Arduino.sketchPath := None;
       Arduino.boardDetails := Some
         {| Arduino.configOptions := [];
            Arduino.buildProperties :=
              [(lit "runtime.platform.path", Some (lit "/esp32"))] ++
              (lit "runtime.tools.mkfatfs.path", Some (lit "/tools/mkfatfs")) ::
              [(lit "runtime.tools.mkfatfs-0.3.6.path", Some (lit "/tools/old"))] |} |}
    (lit "runtime.tools.mkfatfs") = Some (lit "/tools/mkfatfs").
Proof.
  eapply (findTool_first _ _ _ [(lit "runtime.platform.path", Some (lit "/esp32"))]
            [(lit "runtime.tools.mkfatfs-0.3.6.path", Some (lit "/tools/old"))]
            (lit "runtime.tools.mkfatfs.path")).
  - reflexivity.
  - reflexivity.
  - vm_compute. apply (bool_decide_unpack _). by vm_compute.
  - by vm_compute.
  - intros k' val' [Heq|[]%elem_of_nil]%elem_of_cons. injection Heq as -> _.
    by vm_compute.
Defined.

(** X17: When [findTool] returns [undefined] for a prefix, it returns [undefined]
    for every longer prefix too: the second lookup of mkfatfs, with [.path]
    behind the name, finds nothing where the first found nothing. *)
Theorem findTool_longer_prefix (ctx : Arduino.ArduinoContext) (match_ more : jsstring) :
  findTool ctx match_ = None → findTool ctx (match_ ++ more) = None.
Proof.
  unfold findTool. destruct (Arduino.boardDetails ctx) as [details|]; [|done].
  cbv zeta. intros Hnone.
  rewrite findTool_fold_none; [done|].
  intros k Hin Hstart.
  apply (findTool_fold_inv _ match_ _ Hnone k Hin).
  by apply startsWith_shorter in Hstart.
Qed.

Lemma findTool_longer_prefix_witness :
  findTool
    {| Arduino.sketchPath := None;
       Arduino.boardDetails := Some
         {| Arduino.configOptions := [];
            Arduino.buildProperties :=
              [(lit "runtime.platform.path", Some (lit "/esp32"))] |} |}
    (lit "runtime.tools.mkfatfs" ++ lit ".path") = None.
Proof. apply findTool_longer_prefix. by vm_compute. Defined.

(** ** Terminal output of a command *)

Section LineFeeds.

Implicit Types chunk pre post : jsstring.

Lemma replace_newlines_lf chunk : no_bare_lf (replace_newlines chunk).
Proof.
  induction chunk as [|c chunk IH]; intros pre post Heq.
  - by destruct pre.
  - cbn [replace_newlines] in Heq. case_decide as Hc.
    + unfold CRLF in Heq. cbn [app] in Heq.
      destruct pre as [|x pre]; [discriminate Heq|].
      injection Heq as <- Heq.
      destruct pre as [|y pre]; [by exists []|].
      injection Heq as <- Heq.
      destruct (IH pre post Heq) as [pre' ->]. by exists (CR :: newline :: pre').
    + cbn [app] in Heq.
      destruct pre as [|x pre]; [injection Heq as Heq _; congruence|].
      injection Heq as <- Heq.
      destruct (IH pre post Heq) as [pre' ->]. by exists (c :: pre').
Qed.

(** Text without line feeds around a string keeps the property. *)
Lemma no_bare_lf_wrap a s b :
  newline ∉ a → newline ∉ b → no_bare_lf s → no_bare_lf (a ++ s ++ b).
Proof.
  intros Ha Hb Hs pre post Heq.
  apply app_eq_inv in Heq as [(k & -> & Heq)|(k & -> & Heq)].
  - destruct k as [|x k].
    + cbn [app] in Heq. destruct s as [|y s].
      * exfalso. apply Hb. cbn [app] in Heq. rewrite <- Heq. by left.
      * injection Heq as <- Heq.
        by destruct (Hs [] s eq_refl) as [[|??] ?].
    + injection Heq as <- _. exfalso. apply Ha. apply elem_of_app. right. by left.
  - apply app_eq_inv in Heq as [(k2 & -> & Heq)|(k2 & -> & Heq)].
    + destruct k2 as [|x k2].
      * exfalso. apply Hb. cbn [app] in Heq. rewrite <- Heq. by left.
      * injection Heq as <- _.
        destruct (Hs k k2 eq_refl) as [pre' ->]. exists (a ++ pre').
        by rewrite app_assoc.
    + exfalso. apply Hb. rewrite Heq. apply elem_of_app. right. by left.
Qed.

End LineFeeds.

(** X18: What [runCommand] fires at the terminal never holds a bare line feed:
    in the text fired for a chunk of the standard output, and in the red
    text fired for a chunk of the standard error, every line feed comes
    after a carriage return. *)
Theorem runCommand_line_ends (chunk pre post : jsstring) :
  runCommand_stdout chunk = pre ++ newline :: post ∨
  runCommand_stderr chunk = pre ++ newline :: post →
  ∃ pre', pre = pre' ++ [CR].
Proof.
  intros [Heq|Heq].
  - by apply (replace_newlines_lf chunk pre post).
  - revert Heq. unfold runCommand_stderr.
    apply (no_bare_lf_wrap (ESC :: lit "[31m") (replace_newlines chunk) (ESC :: lit "[0m")).
    + vm_compute. intros Hin.
      repeat (apply elem_of_cons in Hin as [Hin|Hin]; [discriminate Hin|]).
      by apply elem_of_nil in Hin.
    + vm_compute. intros Hin.
      repeat (apply elem_of_cons in Hin as [Hin|Hin]; [discriminate Hin|]).
      by apply elem_of_nil in Hin.
    + apply replace_newlines_lf.
Qed.

Lemma runCommand_line_ends_witness :
  ∃ pre', lit "Done" ++ [CR] = pre' ++ [CR].
Proof.
  apply (runCommand_line_ends (lit "Done" ++ [newline] ++ lit "ok")
           (lit "Done" ++ [CR]) (lit "ok")).
  left. reflexivity.
Defined.

(** ** Choice of the partition file *)

(** X19: [getPartitionSchemeFile] never gives up in silence and never answers in
    silence: when it returns [undefined], the last text it fired is a red
    error message; when it returns a path, the last text it fired announces
    the partition used, and the path ends in [.csv]. *)
Theorem getPartitionSchemeFile_reports (sep : jsstring) (existsSync : jsstring → bool)
    (arduinoContext : Arduino.ArduinoContext) :
  let result := getPartitionSchemeFile sep existsSync arduinoContext in
  match snd result with
  | None =>
      ∃ message,
        last (fst result) =
        Some (red (CRLF ++ CRLF ++ lit "ERROR: " ++ message ++ CRLF))
  | Some file =>
      (∃ what,
         last (fst result) =
         Some (blue (lit "Using partition: ") false ++ green what false ++ CRLF)) ∧
      ∃ stem, file = stem ++ lit ".csv"
  end.
Proof.
  cbv zeta. unfold getPartitionSchemeFile. cbv zeta.
  destruct arduinoContext as [sketch details]. cbn [Arduino.sketchPath Arduino.boardDetails].
  assert (Hboard :
    match details with
    | None => True
    | Some details =>
        let result :=
          let '(log1, selectedScheme) := getSelectedPartitionScheme details in
          let '(log2, selectedScheme) :=
            match selectedScheme with
            | Some _ => ([], selectedScheme)
            | None => getDefaultPartitionScheme details
            end in
          match selectedScheme with
          | None =>
              (log1 ++ log2 ++
               [red (CRLF ++ CRLF ++ lit "ERROR: No board partition scheme found" ++ CRLF)],
               None)
          | Some scheme =>
              let platformPath :=
                Arduino.get (Arduino.buildProperties details)
                  (lit "runtime.platform.path") in
              (log1 ++ log2 ++
               [blue (lit "Using partition: ") false ++ green scheme false ++ CRLF],
               Some (concat_operand platformPath ++ sep ++ lit "tools" ++ sep ++
                     lit "partitions" ++ sep ++ scheme ++ lit ".csv"))
          end in
        match snd result with
        | None =>
            ∃ message,
              last (fst result) =
              Some (red (CRLF ++ CRLF ++ lit "ERROR: " ++ message ++ CRLF))
        | Some file =>
            (∃ what,
               last (fst result) =
               Some (blue (lit "Using partition: ") false ++ green what false ++ CRLF)) ∧
            ∃ stem, file = stem ++ lit ".csv"
        end
    end).
  { destruct details as [details|]; [|done]. cbv zeta.
    destruct (getSelectedPartitionScheme details) as [log1 [scheme|]].
    - cbn [fst snd]. rewrite (app_assoc log1), last_snoc. split; [by eexists|].
      eexists. by rewrite !app_assoc.
    - destruct (getDefaultPartitionScheme details) as [log2 [scheme|]]; cbn [fst snd].
      + rewrite (app_assoc log1), last_snoc. split; [by eexists|].
        eexists. by rewrite !app_assoc.
      + rewrite (app_assoc log1), last_snoc.
        by exists (lit "No board partition scheme found"). }
  destruct sketch as [sketch|].
  - destruct (existsSync (sketch ++ sep ++ lit "partitions.csv")) eqn:Hexists.
    + cbn [fst snd last]. split; [by eexists|].
      exists (sketch ++ sep ++ lit "partitions"). by rewrite <- !app_assoc.
    + destruct details as [details|]; [exact Hboard|].
      cbn [fst snd last]. by exists (lit "Board details is undefined").
  - destruct details as [details|]; [exact Hboard|].
    cbn [fst snd last]. by exists (lit "Board details is undefined").
Qed.
